(** * Collision checking between a planned ego path and predicted paths

    A shallow embedding of [collision_check.cpp]: the class template
    [CollisionCheck<T>] with its private helpers [eucliDist],
    [Intersection] and [collisionCheckBetweenTwoPaths], and the public
    [collisionCheck].

    The template parameter [T] is kept as a parameter: the arithmetic the
    code uses is the interface [Scalar].  Two instances are given: binary64
    floating point (the [CollisionCheck<double>] that [main] builds), on
    which every definition evaluates, and the real numbers, the arithmetic
    in which the geometry is meant. *)

From Stdlib Require Import ZArith List Bool Lia Permutation.
From Stdlib Require Import Reals Lra.
From Stdlib Require Import Floats.
Import ListNotations.

Set Implicit Arguments.

(** ** The scalar type [T] of the templates *)

(** What the code asks of [T]: conversion from the integer literals
    ([0], [1], the coordinates of the default scene), the [double] literal
    [1e-4], the four arithmetic operators, [sqrt] and [abs] of [<math.h>]
    (the floating-point overloads, as [<math.h>] gives them in C++), and the
    comparisons.  [a > b] is [Tlt b a] and [a >= b] is [Tle b a]. *)
Class Scalar (T : Type) : Type := {
  of_int : Z -> T;
  Teps : T;
  Tadd : T -> T -> T;
  Tsub : T -> T -> T;
  Tmul : T -> T -> T;
  Tdiv : T -> T -> T;
  Tsqrt : T -> T;
  Tabs : T -> T;
  Tlt : T -> T -> bool;
  Tle : T -> T -> bool
}.

Declare Scope scalar_scope.
Delimit Scope scalar_scope with S.
Infix "+" := Tadd : scalar_scope.
Infix "-" := Tsub : scalar_scope.
Infix "*" := Tmul : scalar_scope.
Infix "/" := Tdiv : scalar_scope.
Infix "<?" := Tlt : scalar_scope.
Infix "<=?" := Tle : scalar_scope.
Notation "0" := (of_int 0%Z) : scalar_scope.
Notation "1" := (of_int 1%Z) : scalar_scope.

(** [pow(a, 2)], taken as the product of [a] with itself. *)
Definition pow2 {T} `{Scalar T} (a : T) : T := (a * a)%S.

(** *** [T = double] *)

Module F64.

(** An [int] literal converted to [double]. *)
Definition of_int (z : Z) : float :=
  if (z <? 0)%Z
  then PrimFloat.opp (PrimFloat.of_uint63 (Uint63.of_Z (- z)))
  else PrimFloat.of_uint63 (Uint63.of_Z z).

(** The binary64 number nearest to [1e-4]. *)
Definition eps : float := 0x1.a36e2eb1c432dp-14%float.

End F64.

#[export] Instance double : Scalar float := {|
  of_int := F64.of_int;
  Teps := F64.eps;
  Tadd := PrimFloat.add;
  Tsub := PrimFloat.sub;
  Tmul := PrimFloat.mul;
  Tdiv := PrimFloat.div;
  Tsqrt := PrimFloat.sqrt;
  Tabs := PrimFloat.abs;
  Tlt := PrimFloat.ltb;
  Tle := PrimFloat.leb
|}.

(** *** [T] the real numbers *)

Module Real.

Definition ltb (a b : R) : bool := if Rlt_dec a b then true else false.
Definition leb (a b : R) : bool := if Rle_dec a b then true else false.

End Real.

#[export] Instance real : Scalar R := {|
  of_int := IZR;
  Teps := (1 / 10000)%R;
  Tadd := Rplus;
  Tsub := Rminus;
  Tmul := Rmult;
  Tdiv := Rdiv;
  Tsqrt := R_sqrt.sqrt;
  Tabs := Rabs;
  Tlt := Real.ltb;
  Tle := Real.leb
|}.

(** ** What a call can do *)

(** A call returns a value, or runs into undefined behaviour: [operator[]]
    past the end of a vector, or [i++] / [i + 1] on [INT_MAX].  [OutOfFuel]
    is the model's own: the loop was cut before the code was done. *)
Inductive outcome (A : Type) : Type :=
| Ret (a : A)
| OutOfRange
| SignedOverflow
| OutOfFuel.

Arguments OutOfRange {A}.
Arguments SignedOverflow {A}.
Arguments OutOfFuel {A}.

Definition bind {A B} (m : outcome A) (k : A -> outcome B) : outcome B :=
  match m with
  | Ret a => k a
  | OutOfRange => OutOfRange
  | SignedOverflow => SignedOverflow
  | OutOfFuel => OutOfFuel
  end.

Notation "v <- m ;; k" := (bind m (fun v => k))
  (at level 61, m at next level, right associativity).

Definition INT_MAX : Z := 2147483647.

(** [size_t] is 64 bits wide. *)
Definition SIZE_MODULUS : Z := 2 ^ 64.

(** [i + 1] and [i++] on an [int]. *)
Definition int_succ (i : Z) : outcome Z :=
  if (i <? INT_MAX)%Z then Ret (i + 1)%Z else SignedOverflow.

(** [v[i]] on a [std::vector], the index converted to [size_t]. *)
Definition index {A} (v : list A) (i : Z) : outcome A :=
  match nth_error v (Z.to_nat (i mod SIZE_MODULUS)) with
  | Some a => Ret a
  | None => OutOfRange
  end.

(** [i < v.size() - 1]: [v.size()] is a [size_t], so the subtraction wraps
    around and [i] is converted to [size_t] for the comparison. *)
Definition below_size_minus_1 {A} (i : Z) (v : list A) : bool :=
  (i mod SIZE_MODULUS <? (Z.of_nat (length v) - 1) mod SIZE_MODULUS)%Z.

(** ** The data *)

Record Point (T : Type) : Type := { x : T; y : T }.

Record DynamicObj (T : Type) : Type := {
  future_traj : list (Point T);
  radius : T
}.

Record CollisionCheck (T : Type) : Type := {
  ego : DynamicObj T;
  surroundings : list (DynamicObj T)
}.

(** ** The member functions *)

Section Members.

Context {T : Type} `{Scalar T}.

Local Open Scope scalar_scope.

Definition eucliDist (p1 p2 : Point T) : T :=
  Tsqrt (pow2 (x p1 - x p2) + pow2 (y p1 + y p2)).

(** The local variables of [Intersection] that the branches test, as
    functions of the four points. *)
Definition denominator (p1 p2 p3 p4 : Point T) : T :=
  (y p2 - y p1) * (x p4 - x p3) - (x p2 - x p1) * (y p4 - y p3).

Definition line_t1 (p1 p2 p3 p4 : Point T) : T :=
  ((x p1 - x p3) * (y p4 - y p3) + (y p3 - y p1) * (x p4 - x p3))
  / denominator p1 p2 p3 p4.

Definition line_t2 (p1 p2 p3 p4 : Point T) : T :=
  ((x p1 - x p3) * (y p2 - y p1) + (y p3 - y p1) * (x p2 - x p1))
  / denominator p1 p2 p3 p4.

Definition Intersection (p1 p2 p3 p4 : Point T) : T :=
  let dx_12 := x p2 - x p1 in
  let dy_12 := y p2 - y p1 in
  let dx_34 := x p4 - x p3 in
  let dy_34 := y p4 - y p3 in
  let denominator := dy_12 * dx_34 - dx_12 * dy_34 in
  if Tabs (denominator - 0) <? Teps then eucliDist p1 p2
  else
    let t1 := ((x p1 - x p3) * dy_34 + (y p3 - y p1) * dx_34) / denominator in
    let t2 := ((x p1 - x p3) * dy_12 + (y p3 - y p1) * dx_12) / denominator in
    let segments_intersect :=
      (0 <=? t1) && (t1 <=? 1) && (0 <=? t2) && (t2 <=? 1) in
    if segments_intersect then 0
    else
      let t1 := if t1 <? 0 then 0 else t1 in
      let t1 := if 1 <? t1 then 1 else t1 in
      let t2 := if t2 <? 0 then 0 else t2 in
      let t2 := if 1 <? t2 then 1 else t2 in
      let close_p1 := {| x := x p1 + dx_12 * t1; y := y p1 + dy_12 * t1 |} in
      let close_p2 := {| x := x p3 + dx_34 * t2; y := y p1 + dy_34 * t2 |} in
      eucliDist close_p1 close_p2.

(** The tests and the clamping of [Intersection], named for the statements
    below; [Intersection] above spells them out as the source does. *)

(** The first test, [abs(denominator - 0) < 1e-4]. *)
Definition near_parallel (p1 p2 p3 p4 : Point T) : bool :=
  Tabs (denominator p1 p2 p3 p4 - 0) <? Teps.

(** The value of the local [segments_intersect]. *)
Definition segments_intersect (p1 p2 p3 p4 : Point T) : bool :=
  let t1 := line_t1 p1 p2 p3 p4 in
  let t2 := line_t2 p1 p2 p3 p4 in
  (0 <=? t1) && (t1 <=? 1) && (0 <=? t2) && (t2 <=? 1).

(** The two assignments that clamp a line parameter to [0, 1]. *)
Definition clamp01 (t : T) : T :=
  let t := if t <? 0 then 0 else t in
  if 1 <? t then 1 else t.

(** The inner loop of [collisionCheckBetweenTwoPaths], from [j] on.
    [Ret true]: the function returned [true]; [Ret false]: the loop ran
    to its end. *)
Fixpoint inner_loop (fuel : nat) (safe_dist : T)
    (ego_traj obj_traj : list (Point T)) (i j : Z) : outcome bool :=
  match fuel with
  | O => OutOfFuel
  | S fuel' =>
      if below_size_minus_1 j obj_traj then
        p1 <- index ego_traj i ;;
        i1 <- int_succ i ;;
        p2 <- index ego_traj i1 ;;
        p3 <- index obj_traj j ;;
        j1 <- int_succ j ;;
        p4 <- index obj_traj j1 ;;
        let dist := Intersection p1 p2 p3 p4 in
        if dist <? safe_dist then Ret true
        else inner_loop fuel' safe_dist ego_traj obj_traj i j1
      else Ret false
  end.

(** The outer loop, from [i] on. *)
Fixpoint outer_loop (fuel : nat) (safe_dist : T)
    (ego_traj obj_traj : list (Point T)) (i : Z) : outcome bool :=
  match fuel with
  | O => OutOfFuel
  | S fuel' =>
      if below_size_minus_1 i ego_traj then
        hit <- inner_loop fuel safe_dist ego_traj obj_traj i 0%Z ;;
        if hit then Ret true
        else
          i1 <- int_succ i ;;
          outer_loop fuel' safe_dist ego_traj obj_traj i1
      else Ret false
  end.

Definition collisionCheckBetweenTwoPaths (fuel : nat)
    (obj ego : DynamicObj T) : outcome bool :=
  let safe_dist := radius ego + radius obj in
  outer_loop fuel safe_dist (future_traj ego) (future_traj obj) 0%Z.

(** The range-for of [collisionCheck] over [surroundings]. *)
Fixpoint scan (fuel : nat) (ego : DynamicObj T)
    (objs : list (DynamicObj T)) : outcome bool :=
  match objs with
  | [] => Ret false
  | obj :: rest =>
      hit <- collisionCheckBetweenTwoPaths fuel obj ego ;;
      if hit then Ret true else scan fuel ego rest
  end.

Definition collisionCheck (fuel : nat) (c : CollisionCheck T) : outcome bool :=
  scan fuel (ego c) (surroundings c).

(** The scene the constructor builds. *)
Definition pt (a b : Z) : Point T := {| x := of_int a; y := of_int b |}.

Definition default_scene : CollisionCheck T :=
  {| ego := {| future_traj := [pt 1 2; pt 2 3]; radius := 0 |};
     surroundings :=
       [ {| future_traj := [pt 4 5; pt 5 6]; radius := 0 |};
         {| future_traj := [pt 6 7; pt 7 8]; radius := 0 |} ] |}.

End Members.

(** ** What the specification says of the geometry kernel *)

Section Spec.

Context {T : Type} `{Scalar T}.

Local Open Scope scalar_scope.

(** The point distance as the specification words it: the root of the
    squared coordinate differences. *)
Definition eucliDist_spec (p1 p2 : Point T) : T :=
  Tsqrt (pow2 (x p1 - x p2) + pow2 (y p1 - y p2)).

(** The clamped branch as the specification words it: each closest point
    from its own segment's base point and direction. *)
Definition clamped_distance_spec (p1 p2 p3 p4 : Point T) : T :=
  let t1 := clamp01 (line_t1 p1 p2 p3 p4) in
  let t2 := clamp01 (line_t2 p1 p2 p3 p4) in
  let point_A :=
    {| x := x p1 + (x p2 - x p1) * t1; y := y p1 + (y p2 - y p1) * t1 |} in
  let point_B :=
    {| x := x p3 + (x p4 - x p3) * t2; y := y p3 + (y p4 - y p3) * t2 |} in
  eucliDist_spec point_A point_B.

End Spec.

(** ** Derived notions *)

(** The consecutive-waypoint segments of a trajectory. *)
Definition segments {A} (traj : list A) : list (A * A) :=
  combine traj (tl traj).

(** Some segment of [ego_traj] is closer than [safe_dist] to some segment
    of [obj_traj], for [Intersection]. *)
Definition some_pair_within {T} `{Scalar T} (safe_dist : T)
    (ego_traj obj_traj : list (Point T)) : bool :=
  existsb
    (fun s =>
       existsb
         (fun s' => Tlt (Intersection (fst s) (snd s) (fst s') (snd s')) safe_dist)
         (segments obj_traj))
    (segments ego_traj).

(** A trajectory the loops handle: at least one point, and few enough
    for an [int] to count them. *)
Definition indexable {A} (traj : list A) : Prop :=
  traj <> [] /\ (Z.of_nat (length traj) <= INT_MAX + 1)%Z.

(** A scene on which every loop of the check runs to its end: every
    trajectory has a point, an [int] counts its points, and the fuel
    covers the two loops. *)
Definition well_formed {T} (fuel : nat) (c : CollisionCheck T) : Prop :=
  indexable (future_traj (ego c)) /\
  Forall
    (fun obj =>
       indexable (future_traj obj) /\
       (length (future_traj (ego c)) + length (future_traj obj) <= fuel)%nat)
    (surroundings c).

(** Whether a call returned [true]. *)
Definition returned_true (m : outcome bool) : bool :=
  match m with
  | Ret true => true
  | _ => false
  end.

(** The crossing trajectories (0,0)-(1,1) and (0,1)-(1,0), with their radii. *)
Definition crossing_ego {T} `{Scalar T} (r : T) : DynamicObj T :=
  {| future_traj := [pt 0 0; pt 1 1]; radius := r |}.

Definition crossing_agent {T} `{Scalar T} (r : T) : DynamicObj T :=
  {| future_traj := [pt 0 1; pt 1 0]; radius := r |}.

(** The crossing ego, radius 1, with a far agent before the crossing one. *)
Definition crossing_scene {T} `{Scalar T} : CollisionCheck T :=
  {| ego := crossing_ego (of_int 1);
     surroundings :=
       [ {| future_traj := [pt 4 5; pt 5 6]; radius := of_int 0 |};
         crossing_agent (of_int 0) ] |}.

(** A specified [double] that is not below zero: not a number, a zero,
    or of positive sign. *)
Definition SF_not_negative (f : spec_float) : Prop :=
  match f with
  | S754_nan | S754_zero _ => True
  | S754_infinity s | S754_finite s _ _ => s = false
  end.

(** A trajectory whose length fits the [int] loop counters. *)
Definition int_sized {A} (traj : list A) : Prop :=
  (Z.of_nat (length traj) <= INT_MAX + 1)%Z.

(** Negation on specified [double]s, up to the sign of a zero. *)
Definition SF_is_zero (f : spec_float) : bool :=
  match f with S754_zero _ => true | _ => false end.

(** [b] is the opposite of [a], or both are zeros. *)
Definition SF_negated (a b : spec_float) : Prop :=
  b = SFopp a \/ (SF_is_zero a = true /\ SF_is_zero b = true).

(** [a] and [b] are the same, or both are zeros. *)
Definition SF_same_value (a b : spec_float) : Prop :=
  a = b \/ (SF_is_zero a = true /\ SF_is_zero b = true).

(** ** Tactics *)

(** A relation on specified [double]s that holds by computation. *)
Ltac sf_cases :=
  first [ left; reflexivity | right; split; reflexivity ].

(** Two [double]s that [==] tells apart are different. *)
Ltac float_discr :=
  let E := fresh "E" in
  intro E;
  match type of E with
  | ?a = _ =>
      apply (f_equal (fun f => PrimFloat.eqb f a)) in E;
      vm_compute in E; discriminate E
  end.

(** The operations of the instance [real], by their names in [R]. *)
Ltac real_ops :=
  cbn [Tabs Tsub Tadd Tmul Tdiv Tsqrt Tlt Tle Teps of_int real pow2] in *.

(** ** The branches of [Intersection] *)

Section Branches.

Context {T : Type} `{Scalar T}.

Local Open Scope scalar_scope.

Lemma Intersection_parallel_branch (p1 p2 p3 p4 : Point T) :
  near_parallel p1 p2 p3 p4 = true ->
  Intersection p1 p2 p3 p4 = eucliDist p1 p2.
Proof.
  unfold near_parallel, denominator, Intersection; cbv zeta.
  intros ->. reflexivity.
Qed.

Lemma Intersection_crossing_branch (p1 p2 p3 p4 : Point T) :
  near_parallel p1 p2 p3 p4 = false ->
  segments_intersect p1 p2 p3 p4 = true ->
  Intersection p1 p2 p3 p4 = 0.
Proof.
  unfold near_parallel, segments_intersect, line_t1, line_t2, denominator,
    Intersection; cbv zeta.
  intros -> ->. reflexivity.
Qed.

(** What the last branch returns: the second point takes its ordinate
    from [p1], and the distance is [eucliDist]. *)
Lemma Intersection_clamped_branch (p1 p2 p3 p4 : Point T) :
  near_parallel p1 p2 p3 p4 = false ->
  segments_intersect p1 p2 p3 p4 = false ->
  Intersection p1 p2 p3 p4 =
    let t1 := clamp01 (line_t1 p1 p2 p3 p4) in
    let t2 := clamp01 (line_t2 p1 p2 p3 p4) in
    eucliDist
      {| x := x p1 + (x p2 - x p1) * t1; y := y p1 + (y p2 - y p1) * t1 |}
      {| x := x p3 + (x p4 - x p3) * t2; y := y p1 + (y p4 - y p3) * t2 |}.
Proof.
  unfold near_parallel, segments_intersect, clamp01, line_t1, line_t2,
    denominator, Intersection; cbv zeta.
  intros -> ->. reflexivity.
Qed.

End Branches.

(** ** Arithmetic of the two instances *)

Module RealFacts.

Lemma ltb_true (a b : R) : (a < b)%R -> Real.ltb a b = true.
Proof. unfold Real.ltb. destruct (Rlt_dec a b); tauto. Qed.

Lemma ltb_false (a b : R) : (b <= a)%R -> Real.ltb a b = false.
Proof. unfold Real.ltb. destruct (Rlt_dec a b); [lra | reflexivity]. Qed.

Lemma leb_true (a b : R) : (a <= b)%R -> Real.leb a b = true.
Proof. unfold Real.leb. destruct (Rle_dec a b); tauto. Qed.

Lemma leb_false (a b : R) : (b < a)%R -> Real.leb a b = false.
Proof. unfold Real.leb. destruct (Rle_dec a b); [lra | reflexivity]. Qed.

Lemma ltb_iff (a b : R) : Real.ltb a b = true <-> (a < b)%R.
Proof. unfold Real.ltb. destruct (Rlt_dec a b); split; auto; discriminate. Qed.

Lemma ltb_trans (a b c : R) :
  Real.ltb a b = true -> Real.ltb b c = true -> Real.ltb a c = true.
Proof. rewrite !ltb_iff. lra. Qed.

Lemma sqrt_sq (a b : R) : (0 <= b)%R -> (a = b * b)%R -> R_sqrt.sqrt a = b.
Proof. intros Hb ->. now apply sqrt_square. Qed.

End RealFacts.

(** [<] on [double] is transitive (and never holds of a NaN). *)
Lemma SFltb_trans (a b c : spec_float) :
  SFltb a b = true -> SFltb b c = true -> SFltb a c = true.
Proof.
  unfold SFltb.
  destruct a as [sa | sa | | sa ma ea], b as [sb | sb | | sb mb eb],
    c as [sc | sc | | sc mc ec]; cbn [SFcompare];
    try destruct sa; try destruct sb; try destruct sc;
    try discriminate; try reflexivity;
    change (Pos.compare_cont Eq) with Pos.compare;
    destruct (Z.compare_spec ea eb), (Z.compare_spec eb ec),
      (Z.compare_spec ea ec); try discriminate; try reflexivity; try lia;
    destruct (Pos.compare_spec ma mb), (Pos.compare_spec mb mc),
      (Pos.compare_spec ma mc); cbn [CompOpp];
    try discriminate; try reflexivity; lia.
Qed.

Lemma float_ltb_trans (a b c : float) :
  PrimFloat.ltb a b = true -> PrimFloat.ltb b c = true -> PrimFloat.ltb a c = true.
Proof. rewrite !ltb_spec. apply SFltb_trans. Qed.

Lemma float_zero_spec : Prim2SF (of_int (T := float) 0) = S754_zero false.
Proof. vm_compute. reflexivity. Qed.

(** *** Opposite operands in [double] *)

Section Negation.

Variables prec emax : Z.

Lemma binary_round_aux_negb (s : bool) (m e : Z) (l : location) :
  binary_round_aux prec emax (negb s) m e l =
    SFopp (binary_round_aux prec emax s m e l).
Proof.
  unfold binary_round_aux.
  destruct (shr_fexp prec emax m e l) as [mrs' e'].
  destruct (shr_fexp prec emax _ e' loc_Exact) as [mrs'' e''].
  destruct (shr_m mrs''); try reflexivity.
  destruct (Z.leb e'' (emax - prec)); reflexivity.
Qed.

Lemma binary_normalize_opp (m e : Z) :
  SF_negated (binary_normalize prec emax m e false)
    (binary_normalize prec emax (- m) e false).
Proof.
  destruct m as [| m | m]; cbn [Z.opp binary_normalize]; [sf_cases | |];
    left; unfold binary_round;
    destruct (shl_align m e _) as [mz ez].
  - apply (binary_round_aux_negb false).
  - rewrite (binary_round_aux_negb false).
    destruct (binary_round_aux prec emax false (Z.pos mz) ez loc_Exact) as [[|] | [|] | | [|] ? ?];
      reflexivity.
Qed.

Lemma SFsub_swap (a b : spec_float) :
  SF_negated (SFsub prec emax a b) (SFsub prec emax b a).
Proof.
  destruct a as [sa | sa | | sa ma ea], b as [sb | sb | | sb mb eb];
    try destruct sa; try destruct sb; cbn [SFsub]; try sf_cases;
    rewrite (Z.min_comm eb ea);
    match goal with
    | |- SF_negated (binary_normalize _ _ (?u - ?v) _ _) _ =>
        replace (v - u)%Z with (- (u - v))%Z by lia
    end; apply binary_normalize_opp.
Qed.

Lemma SFmul_opp_l (a c : spec_float) :
  SFmul prec emax (SFopp a) c = SFopp (SFmul prec emax a c).
Proof.
  destruct a as [sa | sa | | sa ma ea], c as [sc | sc | | sc mc ec];
    cbn [SFmul SFopp]; rewrite <- ?negb_xorb_l; try reflexivity.
  apply binary_round_aux_negb.
Qed.

Lemma SFmul_negated_l (a a' c : spec_float) :
  SF_negated a a' -> SF_negated (SFmul prec emax a c) (SFmul prec emax a' c).
Proof.
  intros [-> | [Ha Ha']]; [left; apply SFmul_opp_l |].
  destruct a; try discriminate; destruct a'; try discriminate;
    destruct c; cbn [SFmul]; sf_cases.
Qed.

Lemma SFmul_comm (a b : spec_float) :
  SFmul prec emax a b = SFmul prec emax b a.
Proof.
  destruct a as [sa | sa | | sa ma ea], b as [sb | sb | | sb mb eb];
    cbn [SFmul]; rewrite ?(xorb_comm sb sa); try reflexivity.
  now rewrite (Pos.mul_comm mb ma), (Z.add_comm eb ea).
Qed.

Lemma SFadd_opp (a b : spec_float) :
  SF_negated (SFadd prec emax a b) (SFadd prec emax (SFopp a) (SFopp b)).
Proof.
  destruct a as [sa | sa | | sa ma ea], b as [sb | sb | | sb mb eb];
    try destruct sa; try destruct sb; cbn [SFadd SFopp negb]; try sf_cases;
    match goal with
    | |- SF_negated (binary_normalize _ _ ?u _ _) (binary_normalize _ _ ?v _ _) =>
        replace v with (- u)%Z by (cbn [cond_Zopp]; lia)
    end; apply binary_normalize_opp.
Qed.

Lemma SFadd_negated (a a' b b' : spec_float) :
  SF_negated a a' -> SF_negated b b' ->
  SF_negated (SFadd prec emax a b) (SFadd prec emax a' b').
Proof.
  intros [-> | [Ha Ha']] [-> | [Hb Hb']].
  - apply SFadd_opp.
  - destruct b; try discriminate; destruct b'; try discriminate.
    destruct a as [sa | sa | | sa ma ea]; try destruct sa;
      try destruct s; try destruct s0; cbn [SFadd SFopp negb]; sf_cases.
  - destruct a; try discriminate; destruct a'; try discriminate.
    destruct b as [sb | sb | | sb mb eb]; try destruct sb;
      try destruct s; try destruct s0; cbn [SFadd SFopp negb]; sf_cases.
  - destruct a; try discriminate; destruct a'; try discriminate;
      destruct b; try discriminate; destruct b'; try discriminate.
    destruct s, s0, s1, s2; cbn [SFadd]; sf_cases.
Qed.

Lemma SFdiv_opp (a d : spec_float) :
  SFdiv prec emax (SFopp a) (SFopp d) = SFdiv prec emax a d.
Proof.
  destruct a as [sa | sa | | sa ma ea], d as [sd | sd | | sd md ed];
    cbn [SFdiv SFopp]; rewrite ?xorb_negb_negb; reflexivity.
Qed.

Lemma SFdiv_negated (a a' d d' : spec_float) :
  SF_negated a a' -> SF_negated d d' -> SF_is_zero d = false ->
  SF_same_value (SFdiv prec emax a d) (SFdiv prec emax a' d').
Proof.
  intros Ha [-> | [Hd _]] Hnz; [| congruence].
  destruct Ha as [-> | [Ha Ha']]; [left; symmetry; apply SFdiv_opp |].
  destruct a; try discriminate; destruct a'; try discriminate.
  destruct d; try discriminate; cbn [SFdiv SFopp]; sf_cases.
Qed.

Lemma SFsub_zero_negated (d d' : spec_float) :
  SF_negated d d' ->
  SF_negated (SFsub prec emax d (S754_zero false))
    (SFsub prec emax d' (S754_zero false)).
Proof.
  intros [-> | [Hd Hd']].
  - destruct d as [[|] | [|] | | [|] m e]; cbn [SFsub SFopp negb]; sf_cases.
  - destruct d as [[|] | | |]; try discriminate;
      destruct d' as [[|] | | |]; try discriminate; cbn [SFsub]; sf_cases.
Qed.

End Negation.

Lemma SFabs_negated (a a' : spec_float) :
  SF_negated a a' -> SFabs a = SFabs a'.
Proof.
  intros [-> | [Ha Ha']].
  - destruct a; reflexivity.
  - destruct a; try discriminate; destruct a'; try discriminate. reflexivity.
Qed.

Lemma SFcompare_same_value (a b c : spec_float) :
  SF_same_value a b ->
  SFcompare a c = SFcompare b c /\ SFcompare c a = SFcompare c b.
Proof.
  intros [-> | [Ha Hb]]; [split; reflexivity |].
  destruct a; try discriminate; destruct b; try discriminate.
  destruct c; split; reflexivity.
Qed.

Lemma float_mul_comm (a b : float) : PrimFloat.mul a b = PrimFloat.mul b a.
Proof. apply Prim2SF_inj. rewrite !mul_spec. apply SFmul_comm. Qed.

Lemma float_eps_spec :
  SFltb (S754_zero false) (Prim2SF (Teps (T := float))) = true.
Proof. vm_compute. reflexivity. Qed.

(** Settles the comparisons of a closed real expression, outermost
    first, each by linear arithmetic. *)
Ltac real_compare :=
  repeat match goal with
    | |- context [Rabs ?a] =>
        first [ rewrite (Rabs_right a) by lra | rewrite (Rabs_left a) by lra ]
    | |- context [Real.ltb ?a ?b] =>
        first [ rewrite (@RealFacts.ltb_true a b) by lra
              | rewrite (@RealFacts.ltb_false a b) by lra ]
    | |- context [Real.leb ?a ?b] =>
        first [ rewrite (@RealFacts.leb_true a b) by lra
              | rewrite (@RealFacts.leb_false a b) by lra ]
    end.

(** The scene of the constructor: [main] prints [No collision]. *)
Example default_scene_no_collision :
  collisionCheck 2 (default_scene (T := float)) = Ret false.
Proof. vm_compute. reflexivity. Qed.

(** ** The geometry kernel *)

(** C1, at the point (0, 1) taken twice.  The specification's distance of
    a point to itself is 0; [eucliDist] squares the sum of the ordinates
    and returns 2. *)
Theorem eucliDist_adds_ordinates :
  eucliDist (T := float) (pt 0 1) (pt 0 1) = 2%float /\
  eucliDist_spec (T := float) (pt 0 1) (pt 0 1) = 0%float /\
  eucliDist (T := R) (pt 0 1) (pt 0 1) = 2%R /\
  eucliDist_spec (T := R) (pt 0 1) (pt 0 1) = 0%R.
Proof.
  repeat split; try (vm_compute; reflexivity).
  - unfold eucliDist, pow2, pt; simpl. apply RealFacts.sqrt_sq; lra.
  - unfold eucliDist_spec, pow2, pt; simpl. apply RealFacts.sqrt_sq; lra.
Qed.

(** C3, at the segments (0,0)-(1,0) and (2,1)-(2,2).  The lines meet at
    t1 = 2, t2 = -1, clamped to 1 and 0: the specification's closest points
    are (1,0) and (2,1), at distance sqrt 2.  [Intersection] builds the
    second point as (2,0), with the ordinate of [p1], and returns 1. *)
Theorem Intersection_clamped_mixes_base_points :
  let p1 := pt (T := float) 0 0 in
  let p2 := pt (T := float) 1 0 in
  let p3 := pt (T := float) 2 1 in
  let p4 := pt (T := float) 2 2 in
  near_parallel p1 p2 p3 p4 = false /\
  segments_intersect p1 p2 p3 p4 = false /\
  clamp01 (line_t1 p1 p2 p3 p4) = 1%float /\
  clamp01 (line_t2 p1 p2 p3 p4) = 0%float /\
  Intersection p1 p2 p3 p4 = 1%float /\
  clamped_distance_spec p1 p2 p3 p4 = PrimFloat.sqrt 2 /\
  Intersection p1 p2 p3 p4 <> clamped_distance_spec p1 p2 p3 p4.
Proof.
  cbv zeta. repeat split; try (vm_compute; reflexivity).
  float_discr.
Qed.

(** C7.  When the denominator is not below epsilon and both line
    parameters lie in [0, 1], [Intersection] returns 0, whatever the scalar
    type; on (0,0)-(2,2) against (0,2)-(2,0) it returns 0, in [double] and
    in the reals. *)
Theorem Intersection_zero_when_crossing :
  (forall (T : Type) (ST : Scalar T) (p1 p2 p3 p4 : Point T),
      near_parallel p1 p2 p3 p4 = false ->
      segments_intersect p1 p2 p3 p4 = true ->
      Intersection p1 p2 p3 p4 = of_int 0) /\
  Intersection (T := float) (pt 0 0) (pt 2 2) (pt 0 2) (pt 2 0) = 0%float /\
  Intersection (T := R) (pt 0 0) (pt 2 2) (pt 0 2) (pt 2 0) = 0%R.
Proof.
  split; [| split].
  - intros T ST p1 p2 p3 p4. apply Intersection_crossing_branch.
  - vm_compute. reflexivity.
  - change 0%R with (of_int (T := R) 0).
    apply Intersection_crossing_branch.
    + unfold near_parallel, denominator, pt; simpl. real_compare. reflexivity.
    + unfold segments_intersect, line_t1, line_t2, denominator, pt; simpl.
      real_compare. reflexivity.
Qed.

Lemma Intersection_zero_when_crossing_witness :
  near_parallel (T := float) (pt 0 0) (pt 2 2) (pt 0 2) (pt 2 0) = false /\
  segments_intersect (T := float) (pt 0 0) (pt 2 2) (pt 0 2) (pt 2 0) = true /\
  Intersection (T := float) (pt 0 0) (pt 2 2) (pt 0 2) (pt 2 0) = of_int 0.
Proof.
  split; [vm_compute; reflexivity | split; [vm_compute; reflexivity |]].
  apply (proj1 Intersection_zero_when_crossing); vm_compute; reflexivity.
Defined.

(** When [abs(denominator - 0)] is below the epsilon 1e-4, [Intersection]
    returns [eucliDist p1 p2], the value of the code's own [eucliDist] on
    the first segment's endpoints: the second segment enters the result
    only through the test. *)
Theorem Intersection_near_parallel :
  forall (T : Type) (ST : Scalar T) (p1 p2 p3 p4 : Point T),
    (Tabs (denominator p1 p2 p3 p4 - 0) <? Teps)%S = true ->
    Intersection p1 p2 p3 p4 = eucliDist p1 p2.
Proof.
  intros T ST p1 p2 p3 p4. apply Intersection_parallel_branch.
Qed.

Lemma Intersection_near_parallel_witness :
  (Tabs (denominator (T := float) (pt 0 0) (pt 1 0) (pt 5 7) (pt 8 7) - 0)
     <? Teps)%S = true /\
  Intersection (T := float) (pt 0 0) (pt 1 0) (pt 5 7) (pt 8 7) =
    eucliDist (pt 0 0) (pt 1 0).
Proof.
  split; [vm_compute; reflexivity |].
  apply Intersection_near_parallel. vm_compute. reflexivity.
Defined.

(** C8, at the parallel segments (1,2)-(2,3) and (4,5)-(5,6) of the
    constructor's scene.  The denominator is 0, below epsilon, and the
    point distance of the first segment's endpoints is sqrt 2;
    [Intersection] returns the value of [eucliDist], which adds the
    ordinates: sqrt 26. *)
Theorem Intersection_near_parallel_adds_ordinates :
  (near_parallel (T := float) (pt 1 2) (pt 2 3) (pt 4 5) (pt 5 6) = true /\
   Intersection (T := float) (pt 1 2) (pt 2 3) (pt 4 5) (pt 5 6) = PrimFloat.sqrt 26 /\
   eucliDist_spec (T := float) (pt 1 2) (pt 2 3) = PrimFloat.sqrt 2 /\
   Intersection (T := float) (pt 1 2) (pt 2 3) (pt 4 5) (pt 5 6) <>
     eucliDist_spec (pt 1 2) (pt 2 3)) /\
  (near_parallel (T := R) (pt 1 2) (pt 2 3) (pt 4 5) (pt 5 6) = true /\
   Intersection (T := R) (pt 1 2) (pt 2 3) (pt 4 5) (pt 5 6) = R_sqrt.sqrt 26 /\
   eucliDist_spec (T := R) (pt 1 2) (pt 2 3) = R_sqrt.sqrt 2 /\
   Intersection (T := R) (pt 1 2) (pt 2 3) (pt 4 5) (pt 5 6) <>
     eucliDist_spec (pt 1 2) (pt 2 3)).
Proof.
  split.
  - repeat split; try (vm_compute; reflexivity). float_discr.
  - assert (Hnp : near_parallel (T := R) (pt 1 2) (pt 2 3) (pt 4 5) (pt 5 6) = true).
    { unfold near_parallel, denominator, pt; simpl. real_compare. reflexivity. }
    assert (Hcode : Intersection (T := R) (pt 1 2) (pt 2 3) (pt 4 5) (pt 5 6)
                    = R_sqrt.sqrt 26).
    { rewrite (Intersection_parallel_branch _ _ _ _ Hnp).
      unfold eucliDist, pow2, pt; simpl. f_equal. lra. }
    assert (Hspec : eucliDist_spec (T := R) (pt 1 2) (pt 2 3) = R_sqrt.sqrt 2).
    { unfold eucliDist_spec, pow2, pt; simpl. f_equal. lra. }
    repeat split; try assumption.
    rewrite Hcode, Hspec. intros Heq. apply sqrt_inj in Heq; lra.
Qed.

(** *** Swapping the two segments, in the reals *)

Section SwapReal.

Variables p1 p2 p3 p4 : Point R.

Lemma denominator_swap :
  denominator p3 p4 p1 p2 = (- denominator p1 p2 p3 p4)%R.
Proof. unfold denominator; simpl. ring. Qed.

Lemma near_parallel_swap :
  near_parallel p3 p4 p1 p2 = near_parallel p1 p2 p3 p4.
Proof.
  unfold near_parallel. rewrite denominator_swap. real_ops.
  replace (- denominator p1 p2 p3 p4 - 0)%R
    with (- (denominator p1 p2 p3 p4 - 0))%R by ring.
  now rewrite Rabs_Ropp.
Qed.

Hypothesis not_parallel : near_parallel p1 p2 p3 p4 = false.

Lemma denominator_nonzero : denominator p1 p2 p3 p4 <> 0%R.
Proof.
  intros Hz. revert not_parallel. unfold near_parallel. rewrite Hz. real_ops.
  replace (0 - 0)%R with 0%R by ring. rewrite Rabs_R0.
  rewrite RealFacts.ltb_true by lra. discriminate.
Qed.

Lemma line_t1_swap : line_t1 p3 p4 p1 p2 = line_t2 p1 p2 p3 p4.
Proof.
  pose proof denominator_nonzero as Hd.
  unfold line_t1, line_t2. rewrite denominator_swap.
  set (d := denominator p1 p2 p3 p4) in *. simpl. real_ops. field. exact Hd.
Qed.

Lemma line_t2_swap : line_t2 p3 p4 p1 p2 = line_t1 p1 p2 p3 p4.
Proof.
  pose proof denominator_nonzero as Hd.
  unfold line_t1, line_t2. rewrite denominator_swap.
  set (d := denominator p1 p2 p3 p4) in *. simpl. real_ops. field. exact Hd.
Qed.

Lemma segments_intersect_swap :
  segments_intersect p3 p4 p1 p2 = segments_intersect p1 p2 p3 p4.
Proof.
  unfold segments_intersect; cbv zeta.
  rewrite line_t1_swap, line_t2_swap.
  repeat match goal with |- context [Tle ?a ?b] => destruct (Tle a b) end;
    reflexivity.
Qed.

End SwapReal.

(** *** Swapping the two segments, in [double] *)

Section SwapDouble.

Variables p1 p2 p3 p4 : Point float.

Lemma denominator_swap_double :
  SF_negated (Prim2SF (denominator p1 p2 p3 p4)) (Prim2SF (denominator p3 p4 p1 p2)).
Proof.
  unfold denominator; cbn [Tsub Tmul double].
  rewrite (float_mul_comm (PrimFloat.sub (y p4) (y p3))),
    (float_mul_comm (PrimFloat.sub (x p4) (x p3))).
  rewrite !(sub_spec (PrimFloat.mul _ _)). apply SFsub_swap.
Qed.

Lemma near_parallel_swap_double :
  near_parallel p3 p4 p1 p2 = near_parallel p1 p2 p3 p4.
Proof.
  unfold near_parallel; cbn [Tlt Tabs Tsub double].
  rewrite !ltb_spec, !abs_spec, !(sub_spec _ (of_int 0)), float_zero_spec.
  f_equal. symmetry. apply SFabs_negated, SFsub_zero_negated.
  apply denominator_swap_double.
Qed.

Hypothesis not_parallel : near_parallel p1 p2 p3 p4 = false.

Lemma denominator_not_zero_double :
  SF_is_zero (Prim2SF (denominator p1 p2 p3 p4)) = false.
Proof.
  revert not_parallel. unfold near_parallel; cbn [Tlt Tabs Tsub double].
  rewrite ltb_spec, abs_spec, sub_spec, float_zero_spec.
  destruct (Prim2SF (denominator p1 p2 p3 p4)) as [[|] | | |]; try reflexivity;
    cbn [SF64sub SFsub SFabs]; rewrite float_eps_spec; discriminate.
Qed.

Lemma line_t1_swap_double :
  SF_same_value (Prim2SF (line_t2 p1 p2 p3 p4)) (Prim2SF (line_t1 p3 p4 p1 p2)).
Proof.
  unfold line_t1, line_t2; cbn [Tadd Tsub Tmul Tdiv double].
  rewrite !div_spec, !add_spec, !mul_spec, !(sub_spec (x _)), !(sub_spec (y _)).
  apply SFdiv_negated;
    [ apply SFadd_negated; apply SFmul_negated_l; apply SFsub_swap
    | apply denominator_swap_double
    | apply denominator_not_zero_double ].
Qed.

Lemma line_t2_swap_double :
  SF_same_value (Prim2SF (line_t1 p1 p2 p3 p4)) (Prim2SF (line_t2 p3 p4 p1 p2)).
Proof.
  unfold line_t1, line_t2; cbn [Tadd Tsub Tmul Tdiv double].
  rewrite !div_spec, !add_spec, !mul_spec, !(sub_spec (x _)), !(sub_spec (y _)).
  apply SFdiv_negated;
    [ apply SFadd_negated; apply SFmul_negated_l; apply SFsub_swap
    | apply denominator_swap_double
    | apply denominator_not_zero_double ].
Qed.

Lemma float_leb_same_value (a b c : float) :
  SF_same_value (Prim2SF a) (Prim2SF b) ->
  PrimFloat.leb a c = PrimFloat.leb b c /\ PrimFloat.leb c a = PrimFloat.leb c b.
Proof.
  intros Hab. rewrite !leb_spec. unfold SFleb.
  destruct (@SFcompare_same_value _ _ (Prim2SF c) Hab) as [-> ->]. split; reflexivity.
Qed.

Lemma segments_intersect_swap_double :
  segments_intersect p3 p4 p1 p2 = segments_intersect p1 p2 p3 p4.
Proof.
  unfold segments_intersect; cbv zeta; cbn [Tle double].
  destruct (@float_leb_same_value _ _ (of_int 0) line_t1_swap_double) as [_ <-].
  destruct (@float_leb_same_value _ _ (of_int 1) line_t1_swap_double) as [<- _].
  destruct (@float_leb_same_value _ _ (of_int 0) line_t2_swap_double) as [_ <-].
  destruct (@float_leb_same_value _ _ (of_int 1) line_t2_swap_double) as [<- _].
  repeat match goal with
    |- context [PrimFloat.leb ?a ?b] => destruct (PrimFloat.leb a b) end;
    reflexivity.
Qed.

End SwapDouble.

(** C4, as stated, fails on the parallel segments (0,0)-(1,0) and
    (0,0)-(3,0): one order returns the length 1 of the first, the other
    the length 3 of the second. *)
Lemma Intersection_not_symmetric :
  Intersection (T := float) (pt 0 0) (pt 1 0) (pt 0 0) (pt 3 0) <>
    Intersection (T := float) (pt 0 0) (pt 3 0) (pt 0 0) (pt 1 0) /\
  Intersection (T := R) (pt 0 0) (pt 1 0) (pt 0 0) (pt 3 0) <>
    Intersection (T := R) (pt 0 0) (pt 3 0) (pt 0 0) (pt 1 0).
Proof.
  split; [float_discr |].
  rewrite !Intersection_parallel_branch.
  - replace (eucliDist (T := R) (pt 0 0) (pt 1 0)) with 1%R.
    replace (eucliDist (T := R) (pt 0 0) (pt 3 0)) with 3%R.
    + lra.
    + symmetry; unfold eucliDist, pow2, pt; simpl. apply RealFacts.sqrt_sq; lra.
    + symmetry; unfold eucliDist, pow2, pt; simpl. apply RealFacts.sqrt_sq; lra.
  - unfold near_parallel, denominator, pt; simpl. real_compare. reflexivity.
  - unfold near_parallel, denominator, pt; simpl. real_compare. reflexivity.
Qed.

(** C4, amended.  In [double] and in real arithmetic alike: when the
    denominator is not below epsilon and both line parameters lie in
    [0, 1], the two orders of the segments agree, both returning 0. *)
Theorem Intersection_symmetric_when_crossing :
  (forall p1 p2 p3 p4 : Point float,
      near_parallel p1 p2 p3 p4 = false ->
      segments_intersect p1 p2 p3 p4 = true ->
      Intersection p1 p2 p3 p4 = Intersection p3 p4 p1 p2 /\
      Intersection p1 p2 p3 p4 = 0%float) /\
  (forall p1 p2 p3 p4 : Point R,
      near_parallel p1 p2 p3 p4 = false ->
      segments_intersect p1 p2 p3 p4 = true ->
      Intersection p1 p2 p3 p4 = Intersection p3 p4 p1 p2 /\
      Intersection p1 p2 p3 p4 = 0%R).
Proof.
  split; intros p1 p2 p3 p4 Hnp Hsi.
  - rewrite (@Intersection_crossing_branch float double p1 p2 p3 p4 Hnp Hsi).
    rewrite (@Intersection_crossing_branch float double p3 p4 p1 p2).
    + split; reflexivity.
    + now rewrite near_parallel_swap_double.
    + now rewrite segments_intersect_swap_double.
  - rewrite (@Intersection_crossing_branch R real p1 p2 p3 p4 Hnp Hsi).
    rewrite (@Intersection_crossing_branch R real p3 p4 p1 p2).
    + split; reflexivity.
    + now rewrite near_parallel_swap.
    + now rewrite segments_intersect_swap.
Qed.

Lemma Intersection_symmetric_when_crossing_witness :
  near_parallel (T := float) (pt 0 0) (pt 2 2) (pt 0 2) (pt 2 0) = false /\
  segments_intersect (T := float) (pt 0 0) (pt 2 2) (pt 0 2) (pt 2 0) = true /\
  Intersection (T := float) (pt 0 0) (pt 2 2) (pt 0 2) (pt 2 0) =
    Intersection (T := float) (pt 0 2) (pt 2 0) (pt 0 0) (pt 2 2).
Proof.
  assert (Hnp : near_parallel (T := float) (pt 0 0) (pt 2 2) (pt 0 2) (pt 2 0) = false)
    by (vm_compute; reflexivity).
  assert (Hsi : segments_intersect (T := float) (pt 0 0) (pt 2 2) (pt 0 2) (pt 2 0) = true)
    by (vm_compute; reflexivity).
  split; [exact Hnp | split; [exact Hsi |]].
  exact (proj1 (proj1 Intersection_symmetric_when_crossing _ _ _ _ Hnp Hsi)).
Defined.

(** ** The loops of [collisionCheckBetweenTwoPaths] *)

Lemma segments_cons {A} (a b : A) (l : list A) :
  segments (a :: b :: l) = (a, b) :: segments (b :: l).
Proof. reflexivity. Qed.

Section Indexing.

Context {A : Type}.

Variables (pre : list A) (a : A) (rest : list A).

Hypothesis short : (Z.of_nat (length (pre ++ a :: rest)) <= INT_MAX + 1)%Z.

Lemma short_sum :
  (Z.of_nat (length pre) + 1 + Z.of_nat (length rest) <= 2147483648)%Z.
Proof.
  revert short. rewrite length_app; cbn [length]. unfold INT_MAX. lia.
Qed.

Lemma index_middle : index (pre ++ a :: rest) (Z.of_nat (length pre)) = Ret a.
Proof.
  pose proof short_sum as short'.
  unfold index, SIZE_MODULUS. rewrite Z.mod_small by lia.
  rewrite Nat2Z.id, nth_error_app2 by lia.
  now rewrite Nat.sub_diag.
Qed.

Lemma int_succ_middle :
  rest <> [] ->
  int_succ (Z.of_nat (length pre)) = Ret (Z.of_nat (length (pre ++ [a]))).
Proof.
  pose proof short_sum as short'.
  intros Hne. unfold int_succ, INT_MAX.
  destruct rest as [| b rest']; [congruence |]. cbn [length] in short'.
  destruct (Z.ltb_spec (Z.of_nat (length pre)) 2147483647); [| lia].
  rewrite length_app; cbn [length]. f_equal. lia.
Qed.

Lemma below_size_minus_1_middle :
  below_size_minus_1 (Z.of_nat (length pre)) (pre ++ a :: rest) =
    match rest with [] => false | _ :: _ => true end.
Proof.
  pose proof short_sum as short'.
  unfold below_size_minus_1, SIZE_MODULUS.
  rewrite length_app; cbn [length].
  rewrite !Z.mod_small by lia.
  destruct rest; cbn [length]; [apply Z.ltb_ge | apply Z.ltb_lt]; lia.
Qed.

End Indexing.

Section Loops.

Context {T : Type} `{Scalar T}.

Local Open Scope scalar_scope.

Variable safe_dist : T.

(** The inner loop against the segment [p1]-[p2], once [j] has passed
    the points [pre] of the other trajectory. *)
Lemma inner_loop_from (ego_traj : list (Point T)) (i i1 : Z) (p1 p2 : Point T) :
  index ego_traj i = Ret p1 ->
  int_succ i = Ret i1 ->
  index ego_traj i1 = Ret p2 ->
  forall (rest pre : list (Point T)) (q : Point T) (fuel : nat),
    (Z.of_nat (length (pre ++ q :: rest)) <= INT_MAX + 1)%Z ->
    (length rest < fuel)%nat ->
    inner_loop fuel safe_dist ego_traj (pre ++ q :: rest) i (Z.of_nat (length pre)) =
      Ret (existsb
             (fun s' => Intersection p1 p2 (fst s') (snd s') <? safe_dist)
             (segments (q :: rest))).
Proof.
  intros Hp1 Hi1 Hp2.
  induction rest as [| q' rest' IH]; intros pre q fuel Hshort Hfuel;
    (destruct fuel as [| fuel']; [cbn [length] in Hfuel; lia |]);
    cbn [inner_loop]; rewrite (below_size_minus_1_middle _ _ _ Hshort).
  - reflexivity.
  - rewrite Hp1, Hi1; cbn [bind]. rewrite Hp2; cbn [bind].
    rewrite (index_middle _ _ _ Hshort); cbn [bind].
    rewrite (int_succ_middle _ _ Hshort) by discriminate; cbn [bind].
    assert (Hobj : pre ++ q :: q' :: rest' = (pre ++ [q]) ++ q' :: rest')
      by now rewrite <- app_assoc.
    rewrite Hobj in Hshort |- *.
    rewrite (index_middle _ _ _ Hshort); cbn [bind].
    rewrite segments_cons; cbn [existsb fst snd].
    destruct (Intersection p1 p2 q q' <? safe_dist); [reflexivity |].
    cbn [orb]. cbn [length] in Hfuel.
    rewrite (IH (pre ++ [q]) q' fuel' Hshort) by lia.
    reflexivity.
Qed.

(** The outer loop, once [i] has passed the points [pre]. *)
Lemma outer_loop_from (obj_traj : list (Point T)) :
  indexable obj_traj ->
  forall (rest pre : list (Point T)) (p : Point T) (fuel : nat),
    (Z.of_nat (length (pre ++ p :: rest)) <= INT_MAX + 1)%Z ->
    (length rest + length obj_traj < fuel)%nat ->
    outer_loop fuel safe_dist (pre ++ p :: rest) obj_traj (Z.of_nat (length pre)) =
      Ret (some_pair_within safe_dist (p :: rest) obj_traj).
Proof.
  intros [Hne Hobj].
  destruct obj_traj as [| q qs]; [congruence |]. clear Hne.
  induction rest as [| p' rest' IH]; intros pre p fuel Hshort Hfuel;
    (destruct fuel as [| fuel']; [lia |]);
    cbn [outer_loop]; rewrite (below_size_minus_1_middle _ _ _ Hshort).
  - reflexivity.
  - assert (Hego : pre ++ p :: p' :: rest' = (pre ++ [p]) ++ p' :: rest')
      by now rewrite <- app_assoc.
    pose proof (int_succ_middle _ _ Hshort (rest := p' :: rest')) as Hi1.
    pose proof (index_middle _ _ _ Hshort) as Hp1.
    assert (Hp2 : index (pre ++ p :: p' :: rest')
                    (Z.of_nat (length (pre ++ [p]))) = Ret p').
    { rewrite Hego in Hshort |- *. apply (index_middle _ _ _ Hshort). }
    cbn [length] in Hfuel.
    assert (Hin : (length qs < S fuel')%nat) by lia.
    pose proof (@inner_loop_from _ _ _ _ _ Hp1 (Hi1 ltac:(discriminate)) Hp2
                  qs [] q (S fuel') Hobj Hin) as Hinner.
    cbn [app length Z.of_nat] in Hinner. rewrite Hinner; cbn [bind].
    unfold some_pair_within. rewrite segments_cons; cbn [existsb fst snd].
    destruct (existsb _ (segments (q :: qs))); [reflexivity |].
    rewrite Hi1 by discriminate; cbn [bind orb].
    rewrite Hego in Hshort |- *.
    rewrite (IH (pre ++ [p]) p' fuel' Hshort) by (cbn [length]; lia).
    reflexivity.
Qed.

End Loops.

(** On trajectories of at least one point each, with fuel for both
    loops, [collisionCheckBetweenTwoPaths] returns, and returns whether
    some pair of segments is closer than the sum of the radii. *)
Lemma collisionCheckBetweenTwoPaths_returns {T} `{Scalar T}
    (fuel : nat) (obj ego : DynamicObj T) :
  indexable (future_traj ego) ->
  indexable (future_traj obj) ->
  (length (future_traj ego) + length (future_traj obj) <= fuel)%nat ->
  collisionCheckBetweenTwoPaths fuel obj ego =
    Ret (some_pair_within (Tadd (radius ego) (radius obj))
           (future_traj ego) (future_traj obj)).
Proof.
  intros [Hne Hego] Hobj Hfuel. unfold collisionCheckBetweenTwoPaths; cbv zeta.
  destruct (future_traj ego) as [| p rest]; [congruence |].
  cbn [length] in Hfuel.
  apply (outer_loop_from _ Hobj rest [] p); [exact Hego | lia].
Qed.

(** ** Trajectories with fewer than two points *)

(** A trajectory of one point has no segment: the loop over it is empty. *)
Lemma single_point_ego_no_collision {T} `{Scalar T}
    (fuel : nat) (obj : DynamicObj T) (p : Point T) (r : T) :
  collisionCheckBetweenTwoPaths (S fuel) obj
    {| future_traj := [p]; radius := r |} = Ret false.
Proof. reflexivity. Qed.

Lemma single_point_obj_no_collision {T} `{Scalar T}
    (fuel : nat) (ego : DynamicObj T) (q : Point T) (r : T) :
  indexable (future_traj ego) ->
  (length (future_traj ego) < fuel)%nat ->
  collisionCheckBetweenTwoPaths fuel
    {| future_traj := [q]; radius := r |} ego = Ret false.
Proof.
  intros Hego Hfuel.
  rewrite collisionCheckBetweenTwoPaths_returns; cbn [future_traj length];
    [| exact Hego | split; [discriminate | cbn [length]; unfold INT_MAX; lia] | lia].
  f_equal. unfold some_pair_within.
  change (segments [q]) with (@nil (Point T * Point T)).
  induction (segments (future_traj ego)) as [| s l IH]; [reflexivity |].
  cbn [existsb]. exact IH.
Qed.

(** An empty ego trajectory against an agent of one point: the inner loop
    is empty, so nothing is read, and [i] is incremented until it leaves
    the range of [int]. *)
Lemma empty_ego_spins {T} `{Scalar T} (safe_dist : T) (q : Point T) :
  forall (n fuel : nat) (i : Z),
    (0 <= i <= INT_MAX)%Z ->
    n = Z.to_nat (INT_MAX - i) ->
    (n < fuel)%nat ->
    outer_loop fuel safe_dist [] [q] i = SignedOverflow.
Proof.
  assert (Hbelow : forall i, (0 <= i <= INT_MAX)%Z ->
             below_size_minus_1 i (@nil (Point T)) = true).
  { intros i Hi. unfold below_size_minus_1, SIZE_MODULUS, INT_MAX in *.
    cbn [length Z.of_nat]. rewrite Z.mod_small by lia.
    apply Z.ltb_lt. change ((0 - 1) mod 2 ^ 64)%Z with 18446744073709551615%Z. lia. }
  induction n as [| n IH]; intros fuel i Hi Hn Hfuel;
    (destruct fuel as [| fuel']; [lia |]);
    cbn [outer_loop]; rewrite (Hbelow i Hi);
    change (inner_loop (S fuel') safe_dist [] [q] i 0) with (@Ret bool false);
    cbn [bind]; unfold int_succ, INT_MAX in *;
    destruct (Z.ltb_spec i 2147483647); cbn [bind]; try reflexivity; try lia.
  apply IH; lia.
Qed.

Lemma empty_ego_single_point_obj_overflows {T} `{Scalar T}
    (fuel : nat) (q : Point T) (r_ego r_obj : T) :
  (INT_MAX < Z.of_nat fuel)%Z ->
  collisionCheckBetweenTwoPaths fuel
    {| future_traj := [q]; radius := r_obj |}
    {| future_traj := []; radius := r_ego |} = SignedOverflow.
Proof.
  intros Hfuel. unfold collisionCheckBetweenTwoPaths; cbv zeta; cbn [future_traj].
  apply (empty_ego_spins _ q (n := Z.to_nat INT_MAX)); unfold INT_MAX in *; lia.
Qed.

(** C2, on a trajectory of no point at all.  [size() - 1] wraps around to
    2^64 - 1, the loop is entered, and the first iteration reads element
    0 of the empty vector: the call does not return [false], whichever of
    the two agents has the empty trajectory. *)
Theorem empty_trajectory_read_out_of_range :
  forall (T : Type) (ST : Scalar T) (fuel : nat) (r_ego r_obj : T)
         (q1 q2 : Point T),
    below_size_minus_1 0 (@nil (Point T)) = true /\
    collisionCheckBetweenTwoPaths (S fuel)
      {| future_traj := [q1; q2]; radius := r_obj |}
      {| future_traj := []; radius := r_ego |} = OutOfRange /\
    collisionCheckBetweenTwoPaths (S fuel)
      {| future_traj := []; radius := r_obj |}
      {| future_traj := [q1; q2]; radius := r_ego |} = OutOfRange.
Proof.
  intros T ST fuel r_ego r_obj q1 q2.
  repeat split; vm_compute; reflexivity.
Qed.

(** ** The safety radius *)

(** Two trajectories of one segment each: one distance is compared. *)
Lemma one_segment_each {T} `{Scalar T}
    (fuel : nat) (p1 p2 p3 p4 : Point T) (r_ego r_obj : T) :
  collisionCheckBetweenTwoPaths (S (S fuel))
    {| future_traj := [p3; p4]; radius := r_obj |}
    {| future_traj := [p1; p2]; radius := r_ego |} =
  Ret (Tlt (Intersection p1 p2 p3 p4) (Tadd r_ego r_obj)).
Proof.
  unfold collisionCheckBetweenTwoPaths; cbv zeta; cbn [future_traj radius].
  change (outer_loop (S (S fuel)) ?s [p1; p2] [p3; p4] 0)
    with (hit <- (if Tlt (Intersection p1 p2 p3 p4) s then Ret true
                  else Ret false) ;;
          if hit then Ret true else Ret false).
  destruct (Tlt _ _); reflexivity.
Qed.

Lemma crossing_distance_real :
  Intersection (T := R) (pt 0 0) (pt 1 1) (pt 0 1) (pt 1 0) = 0%R.
Proof.
  change 0%R with (of_int (T := R) 0).
  apply Intersection_crossing_branch.
  - unfold near_parallel, denominator, pt; simpl. real_compare. reflexivity.
  - unfold segments_intersect, line_t1, line_t2, denominator, pt; simpl.
    real_compare. reflexivity.
Qed.

Lemma crossing_distance_double :
  Intersection (T := float) (pt 0 0) (pt 1 1) (pt 0 1) (pt 1 0) = 0%float.
Proof. vm_compute. reflexivity. Qed.

(** C5, as stated, fails when both radii are 0: the distance 0 is not
    strictly below the safe distance 0, and no collision is reported. *)
Lemma crossing_paths_radius_zero_no_collision :
  collisionCheckBetweenTwoPaths 2
    (crossing_agent (T := float) 0%float) (crossing_ego 0%float) = Ret false /\
  collisionCheckBetweenTwoPaths 2
    (crossing_agent (T := R) 0%R) (crossing_ego 0%R) = Ret false.
Proof.
  split; [vm_compute; reflexivity |].
  unfold crossing_agent, crossing_ego.
  rewrite one_segment_each, crossing_distance_real.
  real_ops. now rewrite RealFacts.ltb_false by lra.
Qed.

(** C5, amended.  On the crossing trajectories the distance is 0, and a
    collision is reported exactly when the sum of the two radii is
    strictly above 0, in [double] and in the reals. *)
Theorem crossing_paths_collide_iff_positive_radius :
  forall fuel : nat,
    (forall r_ego r_obj : float,
        collisionCheckBetweenTwoPaths (S (S fuel))
          (crossing_agent r_obj) (crossing_ego r_ego) =
        Ret (PrimFloat.ltb 0 (PrimFloat.add r_ego r_obj))) /\
    (forall r_ego r_obj : R,
        collisionCheckBetweenTwoPaths (S (S fuel))
          (crossing_agent r_obj) (crossing_ego r_ego) =
        Ret (Real.ltb 0 (r_ego + r_obj))).
Proof.
  intros fuel. split; intros r_ego r_obj; unfold crossing_agent, crossing_ego;
    rewrite one_segment_each.
  - now rewrite crossing_distance_double.
  - now rewrite crossing_distance_real.
Qed.

(** *** A larger safe distance *)

Section Monotone.

Context {T : Type} `{Scalar T}.

Hypothesis Tlt_trans :
  forall a b c : T, Tlt a b = true -> Tlt b c = true -> Tlt a c = true.

Variables safe_dist safe_dist' : T.

Hypothesis larger : Tlt safe_dist safe_dist' = true.

Variables ego_traj obj_traj : list (Point T).

(** A loop that returned at [safe_dist] returns at [safe_dist'] too. *)
Lemma inner_loop_still_returns (i : Z) :
  forall (fuel : nat) (j : Z) (b : bool),
    inner_loop fuel safe_dist ego_traj obj_traj i j = Ret b ->
    exists b', inner_loop fuel safe_dist' ego_traj obj_traj i j = Ret b' /\
               (b = true -> b' = true).
Proof.
  induction fuel as [| fuel' IH]; intros j b; cbn [inner_loop]; [discriminate |].
  destruct (below_size_minus_1 j obj_traj); [| intros Hb; exists b; auto].
  destruct (index ego_traj i) as [p1 | | |]; cbn [bind]; try discriminate.
  destruct (int_succ i) as [i1 | | |]; cbn [bind]; try discriminate.
  destruct (index ego_traj i1) as [p2 | | |]; cbn [bind]; try discriminate.
  destruct (index obj_traj j) as [p3 | | |]; cbn [bind]; try discriminate.
  destruct (int_succ j) as [j1 | | |]; cbn [bind]; try discriminate.
  destruct (index obj_traj j1) as [p4 | | |]; cbn [bind]; try discriminate.
  destruct (Tlt (Intersection p1 p2 p3 p4) safe_dist) eqn:Hhit.
  - intros _. rewrite (Tlt_trans _ _ _ Hhit larger). exists true; auto.
  - intros Hrest.
    destruct (Tlt (Intersection p1 p2 p3 p4) safe_dist'); [exists true; auto |].
    exact (IH j1 b Hrest).
Qed.

Lemma outer_loop_still_returns :
  forall (fuel : nat) (i : Z) (b : bool),
    outer_loop fuel safe_dist ego_traj obj_traj i = Ret b ->
    exists b', outer_loop fuel safe_dist' ego_traj obj_traj i = Ret b' /\
               (b = true -> b' = true).
Proof.
  induction fuel as [| fuel' IH]; intros i b; cbn [outer_loop]; [discriminate |].
  destruct (below_size_minus_1 i ego_traj); [| intros Hb; exists b; auto].
  destruct (inner_loop (S fuel') safe_dist ego_traj obj_traj i 0)
    as [hit | | |] eqn:Hinner; cbn [bind]; try discriminate.
  destruct (inner_loop_still_returns i _ _ Hinner) as (hit' & -> & Hhit).
  cbn [bind]. destruct hit.
  - intros _. rewrite Hhit by reflexivity. exists true; auto.
  - destruct hit'; [exists true; auto |].
    destruct (int_succ i) as [i1 | | |]; cbn [bind]; try discriminate.
    apply IH.
Qed.

End Monotone.

(** C9.  For fixed trajectories, whenever [<] on the scalar type is
    transitive: if a collision is reported with radii of sum R, it is
    reported with any radii of sum R' > R. *)
Theorem collision_monotone_in_radius :
  forall (T : Type) (ST : Scalar T),
    (forall a b c : T, Tlt a b = true -> Tlt b c = true -> Tlt a c = true) ->
    forall (fuel : nat) (ego_traj obj_traj : list (Point T))
           (r_ego r_obj r_ego' r_obj' : T),
      Tlt (Tadd r_ego r_obj) (Tadd r_ego' r_obj') = true ->
      collisionCheckBetweenTwoPaths fuel
        {| future_traj := obj_traj; radius := r_obj |}
        {| future_traj := ego_traj; radius := r_ego |} = Ret true ->
      collisionCheckBetweenTwoPaths fuel
        {| future_traj := obj_traj; radius := r_obj' |}
        {| future_traj := ego_traj; radius := r_ego' |} = Ret true.
Proof.
  intros T ST Htrans fuel ego_traj obj_traj r_ego r_obj r_ego' r_obj' Hlarger.
  unfold collisionCheckBetweenTwoPaths; cbv zeta; cbn [future_traj radius].
  intros Hhit.
  destruct (@outer_loop_still_returns T ST Htrans _ _ Hlarger _ _ _ _ _ Hhit)
    as (b' & -> & Hb').
  now rewrite Hb'.
Qed.

Lemma collision_monotone_in_radius_witness :
  let ego_traj := [pt (T := float) 0 0; pt 1 0] in
  let obj_traj := [pt (T := float) 2 1; pt 2 2] in
  PrimFloat.ltb (PrimFloat.add 1 1) (PrimFloat.add 2 1) = true /\
  collisionCheckBetweenTwoPaths 2
    {| future_traj := obj_traj; radius := 1%float |}
    {| future_traj := ego_traj; radius := 1%float |} = Ret true /\
  collisionCheckBetweenTwoPaths 2
    {| future_traj := obj_traj; radius := 1%float |}
    {| future_traj := ego_traj; radius := 2%float |} = Ret true.
Proof.
  cbv zeta.
  split; [vm_compute; reflexivity | split; [vm_compute; reflexivity |]].
  apply (collision_monotone_in_radius double float_ltb_trans 2
           [pt 0 0; pt 1 0] [pt 2 1; pt 2 2] 1%float 1%float 2%float 1%float);
    vm_compute; reflexivity.
Defined.

(** ** The scan of [collisionCheck] *)

Section Scan.

Context {T : Type} `{Scalar T}.

Variables (fuel : nat) (ego : DynamicObj T).

Let check (obj : DynamicObj T) : outcome bool :=
  collisionCheckBetweenTwoPaths fuel obj ego.

Lemma scan_false (objs : list (DynamicObj T)) :
  scan fuel ego objs = Ret false <->
  Forall (fun obj => check obj = Ret false) objs.
Proof.
  induction objs as [| obj rest IH]; cbn [scan].
  - split; [constructor | reflexivity].
  - fold (check obj). split.
    + destruct (check obj) as [[|] | | |] eqn:E; cbn [bind]; try discriminate.
      intros Hrest. constructor; [exact E | now apply IH].
    + intros Hall. inversion Hall as [| ? ? Hobj Hrest]; subst.
      rewrite Hobj; cbn [bind]. now apply IH.
Qed.

(** [true] is returned at the first agent whose check is [true]; the
    agents after it are not looked at. *)
Lemma scan_true (objs : list (DynamicObj T)) :
  scan fuel ego objs = Ret true <->
  exists before obj after,
    objs = before ++ obj :: after /\
    Forall (fun obj' => check obj' = Ret false) before /\
    check obj = Ret true.
Proof.
  induction objs as [| obj rest IH]; cbn [scan].
  - split; [discriminate |].
    intros (before & obj & after & Heq & _). destruct before; discriminate.
  - fold (check obj). split.
    + destruct (check obj) as [[|] | | |] eqn:E; cbn [bind]; try discriminate.
      * intros _. exists [], obj, rest. repeat split; [constructor | exact E].
      * intros Hrest. apply IH in Hrest.
        destruct Hrest as (before & obj' & after & -> & Hbefore & Hobj').
        exists (obj :: before), obj', after.
        repeat split; [constructor; assumption | assumption].
    + intros (before & obj' & after & Heq & Hbefore & Hobj').
      destruct before as [| b before'].
      * injection Heq as -> ->. now rewrite Hobj'.
      * injection Heq as -> ->.
        inversion Hbefore as [| ? ? Hb Hbefore']; subst.
        rewrite Hb; cbn [bind]. apply IH.
        exists before', obj', after. auto.
Qed.

(** When every check returns, the scan returns their disjunction. *)
Lemma scan_returns (objs : list (DynamicObj T)) :
  (forall obj, In obj objs -> exists b, check obj = Ret b) ->
  scan fuel ego objs = Ret (existsb (fun obj => returned_true (check obj)) objs).
Proof.
  induction objs as [| obj rest IH]; intros Hall; cbn [scan existsb];
    [reflexivity |].
  fold (check obj).
  destruct (Hall obj (or_introl eq_refl)) as [[|] ->]; cbn [bind returned_true orb];
    [reflexivity |].
  apply IH. intros obj' Hin. apply Hall. now right.
Qed.

End Scan.

Lemma existsb_Permutation {A} (f : A -> bool) (l l' : list A) :
  Permutation l l' -> existsb f l = existsb f l'.
Proof.
  induction 1 as [| a l l' _ IH | a b l | l l' l'' _ IH1 _ IH2]; cbn [existsb].
  - reflexivity.
  - now rewrite IH.
  - now destruct (f a), (f b).
  - now rewrite IH1.
Qed.

Lemma existsb_ext_in {A} (f g : A -> bool) (l : list A) :
  (forall a, In a l -> f a = g a) -> existsb f l = existsb g l.
Proof.
  induction l as [| a l IH]; intros Hfg; cbn [existsb]; [reflexivity |].
  rewrite (Hfg a) by now left.
  rewrite IH; [reflexivity |]. intros b Hb. apply Hfg. now right.
Qed.

Lemma well_formed_checks_return {T} `{Scalar T}
    (fuel : nat) (c : CollisionCheck T) :
  well_formed fuel c ->
  forall obj, In obj (surroundings c) ->
    exists b, collisionCheckBetweenTwoPaths fuel obj (ego c) = Ret b.
Proof.
  intros [Hego Hall] obj Hin.
  rewrite Forall_forall in Hall. destruct (Hall obj Hin) as [Hobj Hfuel].
  eexists. now apply collisionCheckBetweenTwoPaths_returns.
Qed.

(** On a well-formed scene [collisionCheck] returns, and returns whether
    some agent has a segment closer to a segment of the ego path than the
    sum of the two radii. *)
Lemma collisionCheck_returns {T} `{Scalar T}
    (fuel : nat) (c : CollisionCheck T) :
  well_formed fuel c ->
  collisionCheck fuel c =
    Ret (existsb
           (fun obj =>
              some_pair_within (Tadd (radius (ego c)) (radius obj))
                (future_traj (ego c)) (future_traj obj))
           (surroundings c)).
Proof.
  intros Hwf. unfold collisionCheck.
  rewrite scan_returns by now apply well_formed_checks_return.
  f_equal. apply existsb_ext_in. intros obj Hin.
  destruct Hwf as [Hego Hall]. rewrite Forall_forall in Hall.
  destruct (Hall obj Hin) as [Hobj Hfuel].
  rewrite collisionCheckBetweenTwoPaths_returns by assumption.
  cbn [returned_true]. now destruct (some_pair_within _ _ _).
Qed.

(** X13.  [collisionCheck] returns [true] exactly when the check of some
    agent returns [true] after the checks of all agents before it returned
    [false]: it returns at the first collision, and the agents after it
    are not evaluated.  When the check of every agent returns, it returns
    [true] if and only if the check of at least one agent is [true], and
    [false] otherwise; and the check of every agent does return on a
    well-formed scene. *)
Theorem collisionCheck_true_iff_some_agent :
  forall (T : Type) (ST : Scalar T) (fuel : nat) (c : CollisionCheck T),
    (collisionCheck fuel c = Ret true <->
     exists before obj after,
       surroundings c = before ++ obj :: after /\
       Forall (fun obj' => collisionCheckBetweenTwoPaths fuel obj' (ego c) = Ret false)
         before /\
       collisionCheckBetweenTwoPaths fuel obj (ego c) = Ret true) /\
    ((forall obj, In obj (surroundings c) ->
        exists b, collisionCheckBetweenTwoPaths fuel obj (ego c) = Ret b) ->
     (collisionCheck fuel c = Ret true <->
      exists obj, In obj (surroundings c) /\
                  collisionCheckBetweenTwoPaths fuel obj (ego c) = Ret true) /\
     (collisionCheck fuel c = Ret false <->
      forall obj, In obj (surroundings c) ->
                  collisionCheckBetweenTwoPaths fuel obj (ego c) = Ret false) /\
     (collisionCheck fuel c = Ret true \/ collisionCheck fuel c = Ret false)) /\
    (well_formed fuel c ->
     forall obj, In obj (surroundings c) ->
       exists b, collisionCheckBetweenTwoPaths fuel obj (ego c) = Ret b).
Proof.
  intros T ST fuel c. unfold collisionCheck.
  split; [apply scan_true | split; [| apply well_formed_checks_return]].
  intros Hall. split; [| split].
  - rewrite (scan_returns _ _ _ Hall). split.
    + intros Hret. injection Hret as Hex. apply existsb_exists in Hex.
      destruct Hex as (obj & Hin & Hobj). exists obj. split; [exact Hin |].
      destruct (Hall obj Hin) as [[|] Hb]; [exact Hb |].
      rewrite Hb in Hobj. discriminate.
    + intros (obj & Hin & Hobj). f_equal. apply existsb_exists.
      exists obj. split; [exact Hin |]. now rewrite Hobj.
  - rewrite scan_false, Forall_forall. reflexivity.
  - rewrite (scan_returns _ _ _ Hall). destruct (existsb _ _); auto.
Qed.

(** X14.  For every permutation of the surroundings: two results of
    [collisionCheck] that are both booleans are the same boolean; when
    the check of every agent returns, [collisionCheck] returns in both
    orders, with the same result.  With no agent around the result is
    [false]. *)
Theorem collisionCheck_permutation_invariant :
  forall (T : Type) (ST : Scalar T) (fuel : nat) (e : DynamicObj T)
         (objs objs' : list (DynamicObj T)),
    Permutation objs objs' ->
    (forall b b' : bool,
        collisionCheck fuel {| ego := e; surroundings := objs |} = Ret b ->
        collisionCheck fuel {| ego := e; surroundings := objs' |} = Ret b' ->
        b = b') /\
    ((forall obj, In obj objs ->
        exists b, collisionCheckBetweenTwoPaths fuel obj e = Ret b) ->
     collisionCheck fuel {| ego := e; surroundings := objs |} =
       collisionCheck fuel {| ego := e; surroundings := objs' |} /\
     exists b, collisionCheck fuel {| ego := e; surroundings := objs |} = Ret b) /\
    collisionCheck fuel {| ego := e; surroundings := [] |} = Ret false.
Proof.
  intros T ST fuel e objs objs' Hperm.
  unfold collisionCheck; cbn [ego surroundings].
  split; [| split; [| reflexivity]].
  - assert (Hone : forall l l', Permutation l l' ->
               scan fuel e l = Ret true -> scan fuel e l' = Ret false -> False).
    { intros l l' Hp Htrue Hfalse.
      apply scan_true in Htrue.
      destruct Htrue as (before & obj & after & -> & _ & Hobj).
      rewrite scan_false, Forall_forall in Hfalse.
      assert (Hin : In obj l').
      { apply (Permutation_in _ Hp). apply in_or_app. right. now left. }
      rewrite (Hfalse obj Hin) in Hobj. discriminate. }
    intros [|] [|] Hb Hb'; try reflexivity; exfalso.
    + exact (Hone _ _ Hperm Hb Hb').
    + exact (Hone _ _ (Permutation_sym Hperm) Hb' Hb).
  - intros Hall.
    assert (Hall' : forall obj, In obj objs' ->
               exists b, collisionCheckBetweenTwoPaths fuel obj e = Ret b).
    { intros obj Hin. apply Hall. exact (Permutation_in _ (Permutation_sym Hperm) Hin). }
    rewrite (scan_returns _ _ _ Hall), (scan_returns _ _ _ Hall').
    split; [| eexists; reflexivity].
    f_equal. now apply existsb_Permutation.
Qed.

Lemma collisionCheck_true_iff_some_agent_witness :
  let scene := crossing_scene (T := float) in
  (forall obj, In obj (surroundings scene) ->
     exists b, collisionCheckBetweenTwoPaths 2 obj (ego scene) = Ret b) /\
  (collisionCheck 2 scene = Ret true <->
   exists obj, In obj (surroundings scene) /\
               collisionCheckBetweenTwoPaths 2 obj (ego scene) = Ret true).
Proof.
  cbv zeta.
  assert (Hall : forall obj, In obj (surroundings (crossing_scene (T := float))) ->
            exists b, collisionCheckBetweenTwoPaths 2 obj
                        (ego (crossing_scene (T := float))) = Ret b).
  { intros obj [<- | [<- | []]]; eexists; vm_compute; reflexivity. }
  split; [exact Hall |].
  exact (proj1 (proj1 (proj2 (collisionCheck_true_iff_some_agent double 2 crossing_scene))
                  Hall)).
Defined.

Lemma collisionCheck_permutation_invariant_witness :
  let far := {| future_traj := [pt (T := float) 4 5; pt 5 6]; radius := 0%float |} in
  let near := crossing_agent (T := float) 0%float in
  Permutation [far; near] [near; far] /\
  collisionCheck 2 {| ego := crossing_ego 1%float; surroundings := [far; near] |} =
    collisionCheck 2 {| ego := crossing_ego 1%float; surroundings := [near; far] |}.
Proof.
  cbv zeta. split; [apply perm_swap |].
  refine (proj1 (proj1 (proj2 (collisionCheck_permutation_invariant double 2
                   (crossing_ego 1%float) (perm_swap _ _ [])))_)).
  intros obj [<- | [<- | []]]; eexists; vm_compute; reflexivity.
Defined.

(** ** A scene with an agent of no point *)

Lemma crossing_check_hits (fuel : nat) :
  collisionCheckBetweenTwoPaths (S (S fuel))
    (crossing_agent (T := float) 0%float) (crossing_ego 1%float) = Ret true.
Proof.
  unfold crossing_agent, crossing_ego.
  rewrite one_segment_each, crossing_distance_double. reflexivity.
Qed.

Lemma empty_agent_check_fails (fuel : nat) :
  collisionCheckBetweenTwoPaths (S fuel)
    {| future_traj := []; radius := 0%float |}
    (crossing_ego (T := float) 1%float) = OutOfRange.
Proof. vm_compute. reflexivity. Qed.

(** C6, on the crossing ego (radius 1) with an agent of no point listed
    before the crossing agent.  The check of the crossing agent is [true],
    so the claim asks for [true]; the scan first checks the agent of no
    point, reads element 0 of its empty trajectory (the wrap-around of C2),
    and never reaches the crossing agent. *)
Theorem collisionCheck_fails_before_colliding_agent :
  forall fuel : nat,
    let e := crossing_ego (T := float) 1%float in
    let empty := {| future_traj := []; radius := 0%float |} in
    let crossing := crossing_agent (T := float) 0%float in
    In crossing [empty; crossing] /\
    collisionCheckBetweenTwoPaths (S (S fuel)) crossing e = Ret true /\
    collisionCheck (S fuel) {| ego := e; surroundings := [empty; crossing] |}
      = OutOfRange /\
    collisionCheck fuel {| ego := e; surroundings := [empty; crossing] |}
      <> Ret true.
Proof.
  intros fuel e empty crossing.
  assert (Hfail : forall f, collisionCheck (S f)
            {| ego := e; surroundings := [empty; crossing] |} = OutOfRange).
  { intros f. unfold collisionCheck; cbn [scan ego surroundings].
    unfold empty, e. now rewrite empty_agent_check_fails. }
  split; [right; left; reflexivity |].
  split; [apply crossing_check_hits |].
  split; [apply Hfail |].
  destruct fuel as [| f]; [vm_compute | rewrite Hfail]; discriminate.
Qed.

(** C10, on the crossing ego (radius 1) with the crossing agent and an
    agent of no point, in either order.  With the crossing agent first the
    scan returns [true] and never looks at the agent of no point; with the
    agent of no point first it reads element 0 of the empty trajectory
    (the wrap-around of C2): the result changes with the order. *)
Theorem collisionCheck_depends_on_order_with_empty_agent :
  forall fuel : nat,
    let e := crossing_ego (T := float) 1%float in
    let empty := {| future_traj := []; radius := 0%float |} in
    let crossing := crossing_agent (T := float) 0%float in
    Permutation [crossing; empty] [empty; crossing] /\
    collisionCheck (S (S fuel)) {| ego := e; surroundings := [crossing; empty] |}
      = Ret true /\
    collisionCheck (S (S fuel)) {| ego := e; surroundings := [empty; crossing] |}
      = OutOfRange /\
    collisionCheck (S (S fuel)) {| ego := e; surroundings := [] |} = Ret false.
Proof.
  intros fuel e empty crossing.
  split; [apply perm_swap |].
  unfold collisionCheck; cbn [scan ego surroundings]. unfold empty, crossing, e.
  rewrite crossing_check_hits, empty_agent_check_fails.
  repeat split.
Qed.

(** ** Further properties of the geometry kernel, in real arithmetic *)

Lemma eucliDist_real_unfold (p1 p2 : Point R) :
  eucliDist p1 p2 =
    R_sqrt.sqrt ((x p1 - x p2) * (x p1 - x p2) + (y p1 + y p2) * (y p1 + y p2)).
Proof. reflexivity. Qed.

Lemma eucliDist_spec_real_unfold (p1 p2 : Point R) :
  eucliDist_spec p1 p2 =
    R_sqrt.sqrt ((x p1 - x p2) * (x p1 - x p2) + (y p1 - y p2) * (y p1 - y p2)).
Proof. reflexivity. Qed.

(** X1.  In real arithmetic [eucliDist] is symmetric and never negative,
    and it is the Euclidean distance of its two points exactly when one
    of them has ordinate 0. *)
Theorem eucliDist_real_facts :
  forall p1 p2 : Point R,
    eucliDist p1 p2 = eucliDist p2 p1 /\
    (0 <= eucliDist p1 p2)%R /\
    (eucliDist p1 p2 = eucliDist_spec p1 p2 <-> (y p1 * y p2 = 0)%R).
Proof.
  intros [x1 y1] [x2 y2].
  rewrite !eucliDist_real_unfold, eucliDist_spec_real_unfold; cbn [x y].
  split; [f_equal; ring | split; [apply sqrt_pos |]].
  split.
  - intros Heq.
    apply sqrt_inj in Heq;
      try (apply Rplus_le_le_0_compat; apply Rle_0_sqr).
    apply Rplus_eq_reg_l in Heq.
    replace (y1 * y2)%R
      with (((y1 + y2) * (y1 + y2) - (y1 - y2) * (y1 - y2)) / 4)%R by field.
    rewrite Heq. field.
  - intros Hy. do 2 f_equal.
    replace ((y1 + y2) * (y1 + y2))%R
      with ((y1 - y2) * (y1 - y2) + 4 * (y1 * y2))%R by ring.
    rewrite Hy. ring.
Qed.

(** X2.  In real arithmetic [Intersection] never returns a negative
    distance. *)
Theorem Intersection_real_nonneg :
  forall p1 p2 p3 p4 : Point R, (0 <= Intersection p1 p2 p3 p4)%R.
Proof.
  intros p1 p2 p3 p4.
  destruct (near_parallel p1 p2 p3 p4) eqn:Hnp.
  - rewrite (Intersection_parallel_branch _ _ _ _ Hnp). apply sqrt_pos.
  - destruct (segments_intersect p1 p2 p3 p4) eqn:Hsi.
    + rewrite (Intersection_crossing_branch _ _ _ _ Hnp Hsi). cbn. lra.
    + rewrite (Intersection_clamped_branch _ _ _ _ Hnp Hsi). apply sqrt_pos.
Qed.

(** X3.  In real arithmetic, when the direction of one segment is a
    multiple of the direction of the other (parallel segments, or a
    segment of length zero, multiple 0), [Intersection] returns
    [eucliDist p1 p2] wherever the second segment lies. *)
Theorem Intersection_real_parallel :
  forall (p1 p2 p3 p4 : Point R) (k : R),
    ((x p4 - x p3 = k * (x p2 - x p1) /\ y p4 - y p3 = k * (y p2 - y p1)) \/
     (x p2 - x p1 = k * (x p4 - x p3) /\ y p2 - y p1 = k * (y p4 - y p3)))%R ->
    Intersection p1 p2 p3 p4 = eucliDist p1 p2.
Proof.
  intros p1 p2 p3 p4 k Hdir. apply Intersection_parallel_branch.
  unfold near_parallel.
  assert (Hden : denominator p1 p2 p3 p4 = 0%R).
  { unfold denominator; real_ops.
    destruct Hdir as [[-> ->] | [-> ->]]; ring. }
  rewrite Hden; real_ops.
  replace (0 - 0)%R with 0%R by ring. rewrite Rabs_R0.
  apply RealFacts.ltb_true. lra.
Qed.

Lemma Intersection_real_parallel_witness :
  Intersection (T := R) (pt 1 2) (pt 2 3) (pt 4 5) (pt 5 6) =
    eucliDist (pt 1 2) (pt 2 3).
Proof.
  apply (@Intersection_real_parallel (pt 1 2) (pt 2 3) (pt 4 5) (pt 5 6) 1%R).
  left. unfold pt; cbn [x y of_int real]. split; lra.
Defined.

(** X4.  In real arithmetic the clamped parameter lies in [0, 1], and a
    parameter already in [0, 1] is left as it is. *)
Theorem clamp01_real_range :
  forall t : R,
    (0 <= clamp01 t <= 1)%R /\ ((0 <= t <= 1)%R -> clamp01 t = t).
Proof.
  intros t. unfold clamp01; cbv zeta; real_ops. unfold Real.ltb.
  destruct (Rlt_dec t 0); destruct (Rlt_dec 1 _); split; try lra; intros; lra.
Qed.

(** ** A safe distance that is not above zero *)

Lemma SFsqrt_not_negative (prec emax : Z) (f : spec_float) :
  SF_not_negative (SFsqrt prec emax f).
Proof.
  destruct f as [s | s | | s m e]; try destruct s; cbn [SFsqrt SF_not_negative];
    try exact I; try reflexivity.
  destruct (SFsqrt_core_binary prec emax (Z.pos m) e) as [[mz ez] lz].
  unfold binary_round_aux.
  destruct (shr_fexp prec emax mz ez lz) as [mrs' e'].
  destruct (shr_fexp prec emax _ e' loc_Exact) as [mrs'' e''].
  destruct (shr_m mrs''); cbn [SF_not_negative]; try exact I.
  destruct (Z.leb e'' (emax - prec)); reflexivity.
Qed.

(** What is below a bound that zero is not below is negative. *)
Lemma SFltb_not_negative (d s : spec_float) :
  SF_not_negative d ->
  SFltb (S754_zero false) s = false ->
  SFltb d s = false.
Proof.
  unfold SFltb.
  destruct d as [sd | sd | | sd md ed], s as [ss | ss | | ss ms es];
    cbn [SFcompare SF_not_negative]; intros Hd; subst;
    try destruct ss; try destruct sd; try discriminate; try reflexivity.
Qed.

Lemma float_sqrt_not_below (a s : float) :
  Tlt (of_int 0) s = false -> Tlt (Tsqrt a) s = false.
Proof.
  cbn [Tlt Tsqrt double]. rewrite !ltb_spec, sqrt_spec, float_zero_spec.
  apply SFltb_not_negative. apply SFsqrt_not_negative.
Qed.

Lemma real_sqrt_not_below (a s : R) :
  Tlt (of_int 0) s = false -> Tlt (Tsqrt a) s = false.
Proof.
  real_ops. intros Hs. apply RealFacts.ltb_false.
  unfold Real.ltb in Hs. destruct (Rlt_dec 0 s); [discriminate |].
  pose proof (sqrt_pos a). lra.
Qed.

Section NotAboveZero.

Context {T : Type} `{Scalar T}.

Variable safe_dist : T.

Hypothesis not_positive : Tlt (of_int 0) safe_dist = false.

Hypothesis sqrt_not_below : forall a : T, Tlt (Tsqrt a) safe_dist = false.

Lemma Intersection_not_below (p1 p2 p3 p4 : Point T) :
  Tlt (Intersection p1 p2 p3 p4) safe_dist = false.
Proof.
  destruct (near_parallel p1 p2 p3 p4) eqn:Hnp.
  - rewrite (Intersection_parallel_branch _ _ _ _ Hnp). apply sqrt_not_below.
  - destruct (segments_intersect p1 p2 p3 p4) eqn:Hsi.
    + rewrite (Intersection_crossing_branch _ _ _ _ Hnp Hsi). exact not_positive.
    + rewrite (Intersection_clamped_branch _ _ _ _ Hnp Hsi). apply sqrt_not_below.
Qed.

Variables ego_traj obj_traj : list (Point T).

Lemma inner_loop_never_hits (i : Z) :
  forall (fuel : nat) (j : Z),
    inner_loop fuel safe_dist ego_traj obj_traj i j <> Ret true.
Proof.
  induction fuel as [| fuel' IH]; intros j; cbn [inner_loop]; [discriminate |].
  destruct (below_size_minus_1 j obj_traj); [| discriminate].
  destruct (index ego_traj i) as [p1 | | |]; cbn [bind]; try discriminate.
  destruct (int_succ i) as [i1 | | |]; cbn [bind]; try discriminate.
  destruct (index ego_traj i1) as [p2 | | |]; cbn [bind]; try discriminate.
  destruct (index obj_traj j) as [p3 | | |]; cbn [bind]; try discriminate.
  destruct (int_succ j) as [j1 | | |]; cbn [bind]; try discriminate.
  destruct (index obj_traj j1) as [p4 | | |]; cbn [bind]; try discriminate.
  rewrite Intersection_not_below. apply IH.
Qed.

Lemma outer_loop_never_hits :
  forall (fuel : nat) (i : Z),
    outer_loop fuel safe_dist ego_traj obj_traj i <> Ret true.
Proof.
  induction fuel as [| fuel' IH]; intros i; cbn [outer_loop]; [discriminate |].
  destruct (below_size_minus_1 i ego_traj); [| discriminate].
  pose proof (inner_loop_never_hits i (S fuel') 0) as Hinner.
  destruct (inner_loop (S fuel') safe_dist ego_traj obj_traj i 0)
    as [[|] | | |]; cbn [bind]; try discriminate; [congruence |].
  destruct (int_succ i) as [i1 | | |]; cbn [bind]; try discriminate.
  apply IH.
Qed.

End NotAboveZero.

(** The scan finds no collision when no single check can. *)
Lemma scan_never_hits {T} `{Scalar T}
    (fuel : nat) (e : DynamicObj T) (objs : list (DynamicObj T)) :
  (forall obj, In obj objs -> collisionCheckBetweenTwoPaths fuel obj e <> Ret true) ->
  scan fuel e objs <> Ret true.
Proof.
  intros Hnone Htrue. apply scan_true in Htrue.
  destruct Htrue as (before & obj & after & -> & _ & Hobj).
  apply (Hnone obj); [| exact Hobj]. apply in_or_app. right. now left.
Qed.

(** X5.  In [double] and in real arithmetic alike: when for no agent
    the sum of its radius and the ego radius is above 0 (as in the scene
    of the constructor, where every radius is 0), [collisionCheck] does
    not return [true], whatever the trajectories. *)
Theorem no_collision_without_positive_radius :
  (forall (fuel : nat) (c : CollisionCheck float),
      (forall obj, In obj (surroundings c) ->
         PrimFloat.ltb 0 (PrimFloat.add (radius (ego c)) (radius obj)) = false) ->
      collisionCheck fuel c <> Ret true) /\
  (forall (fuel : nat) (c : CollisionCheck R),
      (forall obj, In obj (surroundings c) ->
         (radius (ego c) + radius obj <= 0)%R) ->
      collisionCheck fuel c <> Ret true).
Proof.
  split; intros fuel c Hradii; unfold collisionCheck; apply scan_never_hits;
    intros obj Hin; unfold collisionCheckBetweenTwoPaths; cbv zeta;
    apply outer_loop_never_hits.
  - exact (Hradii obj Hin).
  - intros a. apply float_sqrt_not_below. exact (Hradii obj Hin).
  - apply RealFacts.ltb_false. exact (Hradii obj Hin).
  - intros a. apply real_sqrt_not_below. apply RealFacts.ltb_false.
    exact (Hradii obj Hin).
Qed.

Lemma no_collision_without_positive_radius_witness :
  (forall obj, In obj (surroundings (default_scene (T := float))) ->
     PrimFloat.ltb 0
       (PrimFloat.add (radius (ego (default_scene (T := float)))) (radius obj)) = false) /\
  collisionCheck 7 (default_scene (T := float)) <> Ret true.
Proof.
  assert (Hradii : forall obj, In obj (surroundings (default_scene (T := float))) ->
            PrimFloat.ltb 0
              (PrimFloat.add (radius (ego (default_scene (T := float)))) (radius obj))
            = false).
  { intros obj [<- | [<- | []]]; vm_compute; reflexivity. }
  split; [exact Hradii |].
  exact (proj1 no_collision_without_positive_radius 7 default_scene Hradii).
Defined.

(** ** When the pairwise check returns, and what *)

Lemma In_segments {A} (a b : A) (l : list A) :
  In (a, b) (segments l) <->
  exists i : nat, nth_error l i = Some a /\ nth_error l (S i) = Some b.
Proof.
  induction l as [| a0 l IH].
  - split; [intros [] | intros (i & Hi & _); destruct i; discriminate].
  - destruct l as [| b0 l'].
    + split; [intros [] |].
      intros (i & _ & Hi). destruct i as [| i]; [discriminate |].
      destruct i; discriminate.
    + rewrite segments_cons. cbn [In]. rewrite IH. split.
      * intros [Heq | (i & Hi & Hi')].
        -- injection Heq as -> ->. exists 0%nat. split; reflexivity.
        -- exists (S i). split; assumption.
      * intros (i & Hi & Hi'). destruct i as [| i].
        -- left. cbn in Hi, Hi'. congruence.
        -- right. exists i. split; assumption.
Qed.

Lemma some_pair_within_iff {T} `{Scalar T}
    (safe_dist : T) (ego_traj obj_traj : list (Point T)) :
  some_pair_within safe_dist ego_traj obj_traj = true <->
  exists (i j : nat) (p1 p2 p3 p4 : Point T),
    nth_error ego_traj i = Some p1 /\ nth_error ego_traj (S i) = Some p2 /\
    nth_error obj_traj j = Some p3 /\ nth_error obj_traj (S j) = Some p4 /\
    Tlt (Intersection p1 p2 p3 p4) safe_dist = true.
Proof.
  unfold some_pair_within. rewrite existsb_exists. split.
  - intros ([p1 p2] & Hego & Hex). apply existsb_exists in Hex.
    destruct Hex as ([p3 p4] & Hobj & Hlt). cbn [fst snd] in Hlt.
    apply In_segments in Hego. destruct Hego as (i & Hi & Hi').
    apply In_segments in Hobj. destruct Hobj as (j & Hj & Hj').
    exists i, j, p1, p2, p3, p4. repeat split; assumption.
  - intros (i & j & p1 & p2 & p3 & p4 & Hi & Hi' & Hj & Hj' & Hlt).
    exists (p1, p2). split; [apply In_segments; exists i; split; assumption |].
    apply existsb_exists. exists (p3, p4).
    split; [apply In_segments; exists j; split; assumption | exact Hlt].
Qed.

(** X6.  On two trajectories of at least one point each, with fuel for
    both loops, [collisionCheckBetweenTwoPaths] returns a boolean, and it
    is [true] exactly when some pair of consecutive ego waypoints and some
    pair of consecutive agent waypoints have an [Intersection] distance
    strictly below [ego.radius + obj.radius]: every segment is compared
    with every segment, whatever their indices. *)
Theorem pairwise_check_compares_all_segment_pairs :
  forall (T : Type) (ST : Scalar T) (fuel : nat) (obj ego : DynamicObj T),
    indexable (future_traj ego) ->
    indexable (future_traj obj) ->
    (length (future_traj ego) + length (future_traj obj) <= fuel)%nat ->
    (collisionCheckBetweenTwoPaths fuel obj ego = Ret true \/
     collisionCheckBetweenTwoPaths fuel obj ego = Ret false) /\
    (collisionCheckBetweenTwoPaths fuel obj ego = Ret true <->
     exists (i j : nat) (p1 p2 p3 p4 : Point T),
       nth_error (future_traj ego) i = Some p1 /\
       nth_error (future_traj ego) (S i) = Some p2 /\
       nth_error (future_traj obj) j = Some p3 /\
       nth_error (future_traj obj) (S j) = Some p4 /\
       Tlt (Intersection p1 p2 p3 p4) (Tadd (radius ego) (radius obj)) = true).
Proof.
  intros T ST fuel obj ego Hego Hobj Hfuel.
  rewrite (collisionCheckBetweenTwoPaths_returns _ _ Hego Hobj Hfuel).
  rewrite <- some_pair_within_iff.
  destruct (some_pair_within _ _ _); split; auto; split; congruence.
Qed.

Lemma pairwise_check_compares_all_segment_pairs_witness :
  let ego := {| future_traj := [pt (T := float) 0 0; pt 4 0; pt 6 2];
                radius := 1%float |} in
  let obj := {| future_traj := [pt (T := float) 9 9; pt 4 2; pt 6 0];
                radius := 0%float |} in
  indexable (future_traj ego) /\ indexable (future_traj obj) /\
  (length (future_traj ego) + length (future_traj obj) <= 6)%nat /\
  collisionCheckBetweenTwoPaths 6 obj ego = Ret true.
Proof.
  cbv zeta.
  assert (Hidx : forall l : list (Point float), length l = 3%nat -> indexable l).
  { intros l Hl. split; [intros ->; discriminate |].
    rewrite Hl. unfold INT_MAX. lia. }
  assert (Hfuel : (3 + 3 <= 6)%nat) by lia.
  split; [apply Hidx; reflexivity | split; [apply Hidx; reflexivity |]].
  split; [exact Hfuel |].
  refine (proj2 (proj2 (@pairwise_check_compares_all_segment_pairs float double 6
                          {| future_traj := [pt 9 9; pt 4 2; pt 6 0]; radius := 0%float |}
                          {| future_traj := [pt 0 0; pt 4 0; pt 6 2]; radius := 1%float |}
                          (Hidx [pt 0 0; pt 4 0; pt 6 2] eq_refl)
                          (Hidx [pt 9 9; pt 4 2; pt 6 0] eq_refl) Hfuel)) _).
  exists 1%nat, 1%nat. do 4 eexists.
  repeat split; try reflexivity.
Defined.

(** X7.  On a well-formed scene (every trajectory of at least one point,
    fuel for the loops) [collisionCheck] returns a boolean: whether some
    agent has a segment closer to a segment of the ego path than the sum
    of the two radii. *)
Theorem collisionCheck_total_on_well_formed :
  forall (T : Type) (ST : Scalar T) (fuel : nat) (c : CollisionCheck T),
    well_formed fuel c ->
    collisionCheck fuel c =
      Ret (existsb
             (fun obj =>
                some_pair_within (Tadd (radius (ego c)) (radius obj))
                  (future_traj (ego c)) (future_traj obj))
             (surroundings c)).
Proof.
  intros T ST fuel c Hwf. unfold collisionCheck.
  destruct Hwf as [Hego Hall]. rewrite Forall_forall in Hall.
  induction (surroundings c) as [| obj rest IH]; cbn [scan existsb];
    [reflexivity |].
  destruct (Hall obj (or_introl eq_refl)) as [Hobj Hfuel].
  rewrite (collisionCheckBetweenTwoPaths_returns _ _ Hego Hobj Hfuel); cbn [bind].
  destruct (some_pair_within _ _ _); cbn [orb]; [reflexivity |].
  apply IH. intros obj' Hin. apply Hall. now right.
Qed.

Lemma collisionCheck_total_on_well_formed_witness :
  well_formed 4 (default_scene (T := float)) /\
  collisionCheck 4 (default_scene (T := float)) = Ret false.
Proof.
  assert (Hidx : forall l : list (Point float), length l = 2%nat -> indexable l).
  { intros l Hl. split; [intros ->; discriminate |].
    rewrite Hl. unfold INT_MAX. lia. }
  assert (Hwf : well_formed 4 (default_scene (T := float))).
  { split; [apply Hidx; reflexivity |].
    repeat constructor; try (apply Hidx; reflexivity); cbn; lia. }
  split; [exact Hwf |].
  rewrite (@collisionCheck_total_on_well_formed float double 4 _ Hwf).
  vm_compute. reflexivity.
Defined.

(** ** Trajectories on which the pairwise check does not return *)

(** With no ego point the outer loop is entered at every [i] an [int]
    holds; it fails or runs on, and never returns. *)
Lemma empty_ego_never_returns {T} `{Scalar T}
    (safe_dist : T) (obj_traj : list (Point T)) :
  forall (fuel : nat) (i : Z) (b : bool),
    (0 <= i <= INT_MAX)%Z ->
    outer_loop fuel safe_dist [] obj_traj i <> Ret b.
Proof.
  induction fuel as [| fuel' IH]; intros i b Hi; cbn [outer_loop];
    [discriminate |].
  assert (Hbelow : below_size_minus_1 i (@nil (Point T)) = true).
  { unfold below_size_minus_1, SIZE_MODULUS, INT_MAX in *.
    cbn [length Z.of_nat]. rewrite Z.mod_small by lia.
    apply Z.ltb_lt. change ((0 - 1) mod 2 ^ 64)%Z with 18446744073709551615%Z. lia. }
  rewrite Hbelow. cbn [inner_loop].
  destruct (below_size_minus_1 0 obj_traj).
  - unfold index at 1. destruct (Z.to_nat _); cbn [nth_error bind]; discriminate.
  - cbn [bind]. unfold int_succ, INT_MAX in *.
    destruct (Z.ltb_spec i 2147483647); cbn [bind]; [| discriminate].
    apply IH. lia.
Qed.

(** With no agent point and two ego points or more, the first iteration
    reads element 0 of the empty vector. *)
Lemma empty_obj_never_returns {T} `{Scalar T}
    (safe_dist : T) (p1 p2 : Point T) (rest : list (Point T)) :
  int_sized (p1 :: p2 :: rest) ->
  forall (fuel : nat) (b : bool),
    outer_loop fuel safe_dist (p1 :: p2 :: rest) [] 0 <> Ret b.
Proof.
  intros Hsize fuel b. destruct fuel as [| fuel']; cbn [outer_loop];
    [discriminate |].
  assert (Hbelow : below_size_minus_1 0 (p1 :: p2 :: rest) = true).
  { unfold int_sized, below_size_minus_1, SIZE_MODULUS, INT_MAX in *.
    cbn [length] in *. rewrite !Z.mod_small by lia. apply Z.ltb_lt. lia. }
  rewrite Hbelow.
  change (inner_loop (S fuel') safe_dist (p1 :: p2 :: rest) [] 0 0)
    with (@OutOfRange bool).
  discriminate.
Qed.

(** With no ego point and an agent trajectory of no point, or of two or
    more, the first iteration reads element 0 of the empty ego vector. *)
Lemma empty_ego_reads_out_of_range {T} `{Scalar T}
    (safe_dist : T) (obj_traj : list (Point T)) (fuel : nat) :
  int_sized obj_traj ->
  length obj_traj <> 1%nat ->
  outer_loop (S fuel) safe_dist [] obj_traj 0 = OutOfRange.
Proof.
  intros Hsize Hlen. cbn [outer_loop].
  change (below_size_minus_1 0 (@nil (Point T))) with true. cbn [inner_loop].
  assert (Hbelow : below_size_minus_1 0 obj_traj = true).
  { destruct obj_traj as [| q1 [| q2 rest]]; [reflexivity | now elim Hlen |].
    unfold int_sized, below_size_minus_1, SIZE_MODULUS, INT_MAX in *.
    cbn [length] in *. rewrite !Z.mod_small by lia. apply Z.ltb_lt. lia. }
  rewrite Hbelow. reflexivity.
Qed.

Lemma empty_obj_reads_out_of_range {T} `{Scalar T}
    (safe_dist : T) (p1 p2 : Point T) (rest : list (Point T)) (fuel : nat) :
  int_sized (p1 :: p2 :: rest) ->
  outer_loop (S fuel) safe_dist (p1 :: p2 :: rest) [] 0 = OutOfRange.
Proof.
  intros Hsize. cbn [outer_loop].
  assert (Hbelow : below_size_minus_1 0 (p1 :: p2 :: rest) = true).
  { unfold int_sized, below_size_minus_1, SIZE_MODULUS, INT_MAX in *.
    cbn [length] in *. rewrite !Z.mod_small by lia. apply Z.ltb_lt. lia. }
  rewrite Hbelow. reflexivity.
Qed.

(** X8.  For trajectories an [int] can index,
    [collisionCheckBetweenTwoPaths] returns a boolean (given fuel) exactly
    when the ego trajectory has one point, or both trajectories have at
    least one.  In the remaining cases it fails, whatever the radii: with
    no ego point it reads element 0 of the empty ego vector, unless the
    agent has exactly one point, and then the loop counter is incremented
    past [INT_MAX]; with two ego points or more and no agent point it
    reads element 0 of the empty agent vector. *)
Theorem pairwise_check_returns_iff :
  forall (T : Type) (ST : Scalar T) (obj ego : DynamicObj T),
    int_sized (future_traj ego) ->
    int_sized (future_traj obj) ->
    ((exists (fuel : nat) (b : bool),
         collisionCheckBetweenTwoPaths fuel obj ego = Ret b) <->
     (length (future_traj ego) = 1%nat \/
      (future_traj ego <> [] /\ future_traj obj <> []))) /\
    (future_traj ego = [] -> length (future_traj obj) <> 1%nat ->
     forall fuel : nat,
       collisionCheckBetweenTwoPaths (S fuel) obj ego = OutOfRange) /\
    (future_traj ego = [] -> length (future_traj obj) = 1%nat ->
     forall fuel : nat, (INT_MAX < Z.of_nat fuel)%Z ->
       collisionCheckBetweenTwoPaths fuel obj ego = SignedOverflow) /\
    ((2 <= length (future_traj ego))%nat -> future_traj obj = [] ->
     forall fuel : nat,
       collisionCheckBetweenTwoPaths (S fuel) obj ego = OutOfRange).
Proof.
  intros T ST obj ego Hego Hobj. split; [split | split; [| split]].
  - intros (fuel & b & Hret). revert Hret.
    unfold collisionCheckBetweenTwoPaths; cbv zeta.
    destruct (future_traj ego) as [| p1 [| p2 rest]].
    + intros Hret. exfalso. revert Hret.
      apply empty_ego_never_returns. unfold INT_MAX. lia.
    + intros _. left. reflexivity.
    + destruct (future_traj obj) as [| q qs].
      * intros Hret. exfalso. revert Hret.
        now apply empty_obj_never_returns.
      * intros _. right. split; discriminate.
  - intros [Hone | [Hne Hne']].
    + exists 1%nat, false. unfold collisionCheckBetweenTwoPaths; cbv zeta.
      destruct (future_traj ego) as [| p [| p' rest]]; try discriminate.
      reflexivity.
    + exists (length (future_traj ego) + length (future_traj obj))%nat.
      eexists. apply collisionCheckBetweenTwoPaths_returns;
        [split; assumption | split; assumption | lia].
  - intros Hnil Hlen fuel. unfold collisionCheckBetweenTwoPaths; cbv zeta.
    rewrite Hnil. now apply empty_ego_reads_out_of_range.
  - intros Hnil Hlen fuel Hfuel. unfold collisionCheckBetweenTwoPaths; cbv zeta.
    rewrite Hnil. destruct (future_traj obj) as [| q [| q' qs]]; try discriminate.
    apply (empty_ego_spins _ q (n := Z.to_nat INT_MAX)); unfold INT_MAX in *; lia.
  - intros Hlen Hnil fuel. unfold collisionCheckBetweenTwoPaths; cbv zeta.
    rewrite Hnil. destruct (future_traj ego) as [| p1 [| p2 rest]];
      cbn [length] in Hlen; try lia.
    now apply empty_obj_reads_out_of_range.
Qed.

Lemma pairwise_check_returns_iff_witness :
  let obj := {| future_traj := @nil (Point float); radius := 0%float |} in
  let ego := {| future_traj := [pt (T := float) 1 2; pt 2 3]; radius := 0%float |} in
  int_sized (future_traj ego) /\ int_sized (future_traj obj) /\
  (2 <= length (future_traj ego))%nat /\ future_traj obj = [] /\
  collisionCheckBetweenTwoPaths 1 obj ego = OutOfRange /\
  ~ (exists (fuel : nat) (b : bool),
        collisionCheckBetweenTwoPaths fuel obj ego = Ret b).
Proof.
  cbv zeta.
  assert (Hego : int_sized [pt (T := float) 1 2; pt 2 3])
    by (unfold int_sized, INT_MAX; cbn [length]; lia).
  assert (Hobj : int_sized (@nil (Point float)))
    by (unfold int_sized, INT_MAX; cbn [length]; lia).
  assert (Hlen : (2 <= length [pt (T := float) 1 2; pt 2 3])%nat)
    by (cbn [length]; lia).
  pose proof (@pairwise_check_returns_iff float double
                {| future_traj := []; radius := 0%float |}
                {| future_traj := [pt 1 2; pt 2 3]; radius := 0%float |}
                Hego Hobj) as (Hiff & _ & _ & Hread).
  split; [exact Hego | split; [exact Hobj |]].
  split; [exact Hlen | split; [reflexivity |]].
  split; [exact (Hread Hlen eq_refl 0%nat) |].
  intros Hret. apply (proj1 Hiff) in Hret.
  cbn [future_traj length] in Hret.
  destruct Hret as [Hone | [_ Hne]]; [discriminate | now apply Hne].
Defined.

(** X9.  A trajectory of exactly one point gives no collision: with a
    one-point ego trajectory the check returns [false] against any agent
    (even one with no point), and with a one-point agent trajectory it
    returns [false] against every ego trajectory of at least one point. *)
Theorem one_point_trajectory_no_collision :
  forall (T : Type) (ST : Scalar T) (fuel : nat) (p : Point T) (r : T),
    (forall obj : DynamicObj T,
        collisionCheckBetweenTwoPaths (S fuel) obj
          {| future_traj := [p]; radius := r |} = Ret false) /\
    (forall ego : DynamicObj T,
        indexable (future_traj ego) ->
        (length (future_traj ego) < fuel)%nat ->
        collisionCheckBetweenTwoPaths fuel
          {| future_traj := [p]; radius := r |} ego = Ret false).
Proof.
  intros T ST fuel p r. split.
  - intros obj. apply single_point_ego_no_collision.
  - intros ego. apply single_point_obj_no_collision.
Qed.

Lemma one_point_trajectory_no_collision_witness :
  let ego := crossing_ego (T := float) 1%float in
  indexable (future_traj ego) /\ (length (future_traj ego) < 3)%nat /\
  collisionCheckBetweenTwoPaths 3
    {| future_traj := [pt 0 1]; radius := 1%float |} ego = Ret false.
Proof.
  cbv zeta.
  assert (Hego : indexable (future_traj (crossing_ego (T := float) 1%float))).
  { split; [discriminate | cbn [crossing_ego future_traj length]; unfold INT_MAX; lia]. }
  assert (Hfuel : (length (future_traj (crossing_ego (T := float) 1%float)) < 3)%nat)
    by (cbn [crossing_ego future_traj length]; lia).
  split; [exact Hego | split; [exact Hfuel |]].
  exact (proj2 (@one_point_trajectory_no_collision float double 3 (pt 0 1) 1%float)
           _ Hego Hfuel).
Defined.

(** X10.  An empty ego trajectory against an agent of one point: nothing
    is read, and once the fuel covers the range of [int] the loop counter
    is incremented past [INT_MAX]. *)
Theorem empty_ego_one_point_obj_overflows :
  forall (T : Type) (ST : Scalar T) (fuel : nat) (q : Point T) (r_ego r_obj : T),
    (INT_MAX < Z.of_nat fuel)%Z ->
    collisionCheckBetweenTwoPaths fuel
      {| future_traj := [q]; radius := r_obj |}
      {| future_traj := []; radius := r_ego |} = SignedOverflow.
Proof.
  intros T ST fuel q r_ego r_obj. apply empty_ego_single_point_obj_overflows.
Qed.

Lemma empty_ego_one_point_obj_overflows_witness :
  (INT_MAX < Z.of_nat (Z.to_nat (INT_MAX + 1)))%Z /\
  collisionCheckBetweenTwoPaths (Z.to_nat (INT_MAX + 1))
    {| future_traj := [pt (T := float) 0 1]; radius := 0%float |}
    {| future_traj := []; radius := 0%float |} = SignedOverflow.
Proof.
  assert (Hfuel : (INT_MAX < Z.of_nat (Z.to_nat (INT_MAX + 1)))%Z).
  { rewrite Z2Nat.id; [apply Z.lt_succ_diag_r | discriminate]. }
  split; [exact Hfuel |].
  exact (@empty_ego_one_point_obj_overflows float double _ (pt 0 1)
           0%float 0%float Hfuel).
Defined.

(** ** Scenes put together *)

(** X11.  Scanning the agents [objs ++ more] is scanning [objs] and, only
    if that returned [false], scanning [more]: agents added at the end
    leave a [true] verdict (or a failure) as it is, and after a [false]
    verdict the result is that of the added agents alone. *)
Theorem collisionCheck_app :
  forall (T : Type) (ST : Scalar T) (fuel : nat) (e : DynamicObj T)
         (objs more : list (DynamicObj T)),
    collisionCheck fuel {| ego := e; surroundings := objs ++ more |} =
      (hit <- collisionCheck fuel {| ego := e; surroundings := objs |} ;;
       if hit then Ret true
       else collisionCheck fuel {| ego := e; surroundings := more |}).
Proof.
  intros T ST fuel e objs more. unfold collisionCheck; cbn [ego surroundings].
  induction objs as [| obj rest IH]; cbn [app scan bind]; [reflexivity |].
  destruct (collisionCheckBetweenTwoPaths fuel obj e) as [[|] | | |];
    cbn [bind]; try reflexivity.
  exact IH.
Qed.

(** ** The crossing test, in real arithmetic *)

Section CrossingReal.

Variables p1 p2 p3 p4 : Point R.

Hypothesis not_parallel : near_parallel p1 p2 p3 p4 = false.

(** [t1] and [t2] locate one point on both lines. *)
Lemma line_parameters_meet :
  (x p1 + line_t1 p1 p2 p3 p4 * (x p2 - x p1) =
     x p3 + line_t2 p1 p2 p3 p4 * (x p4 - x p3))%R /\
  (y p1 + line_t1 p1 p2 p3 p4 * (y p2 - y p1) =
     y p3 + line_t2 p1 p2 p3 p4 * (y p4 - y p3))%R.
Proof.
  pose proof (@denominator_nonzero p1 p2 p3 p4 not_parallel) as Hd.
  unfold line_t1, line_t2. revert Hd. unfold denominator; real_ops.
  intros Hd. split; field; exact Hd.
Qed.

(** They are the only parameters that do. *)
Lemma line_parameters_unique (t1 t2 : R) :
  (x p1 + t1 * (x p2 - x p1) = x p3 + t2 * (x p4 - x p3))%R ->
  (y p1 + t1 * (y p2 - y p1) = y p3 + t2 * (y p4 - y p3))%R ->
  line_t1 p1 p2 p3 p4 = t1 /\ line_t2 p1 p2 p3 p4 = t2.
Proof.
  pose proof (@denominator_nonzero p1 p2 p3 p4 not_parallel) as Hd.
  intros Hx Hy.
  assert (Hx' : (x p1 - x p3 = t2 * (x p4 - x p3) - t1 * (x p2 - x p1))%R) by lra.
  assert (Hy' : (y p3 - y p1 = t1 * (y p2 - y p1) - t2 * (y p4 - y p3))%R) by lra.
  unfold line_t1, line_t2. real_ops. rewrite Hx', Hy'.
  revert Hd. unfold denominator; real_ops. intros Hd.
  split; field; exact Hd.
Qed.

End CrossingReal.

(** X12.  In real arithmetic, for segments whose denominator is not below
    epsilon, the test [segments_intersect] holds exactly when the two
    segments have a point in common: a point p1 + t1 (p2 - p1) that is also
    p3 + t2 (p4 - p3), with t1 and t2 in [0, 1].  The branch that returns
    0 is taken for the segments that do meet. *)
Theorem segments_intersect_real_iff_common_point :
  forall p1 p2 p3 p4 : Point R,
    near_parallel p1 p2 p3 p4 = false ->
    (segments_intersect p1 p2 p3 p4 = true <->
     exists t1 t2 : R,
       (0 <= t1 <= 1)%R /\ (0 <= t2 <= 1)%R /\
       (x p1 + t1 * (x p2 - x p1) = x p3 + t2 * (x p4 - x p3))%R /\
       (y p1 + t1 * (y p2 - y p1) = y p3 + t2 * (y p4 - y p3))%R).
Proof.
  intros p1 p2 p3 p4 Hnp.
  assert (Hrange : forall t1 t2 : R,
             (Tle (of_int 0) t1 && Tle t1 (of_int 1) &&
              Tle (of_int 0) t2 && Tle t2 (of_int 1)) = true <->
             (0 <= t1 <= 1)%R /\ (0 <= t2 <= 1)%R).
  { intros t1 t2. real_ops. unfold Real.leb.
    destruct (Rle_dec 0 t1), (Rle_dec t1 1), (Rle_dec 0 t2), (Rle_dec t2 1);
      cbn [andb]; split; try discriminate; try lra; auto. }
  unfold segments_intersect; cbv zeta. rewrite Hrange. split.
  - intros [H1 H2].
    destruct (@line_parameters_meet p1 p2 p3 p4 Hnp) as [Hx Hy].
    exists (line_t1 p1 p2 p3 p4), (line_t2 p1 p2 p3 p4). auto.
  - intros (t1 & t2 & H1 & H2 & Hx & Hy).
    destruct (@line_parameters_unique p1 p2 p3 p4 Hnp t1 t2 Hx Hy) as [-> ->].
    auto.
Qed.

Lemma segments_intersect_real_iff_common_point_witness :
  near_parallel (T := R) (pt 0 0) (pt 2 2) (pt 0 2) (pt 2 0) = false /\
  exists t1 t2 : R,
    (0 <= t1 <= 1)%R /\ (0 <= t2 <= 1)%R /\
    (x (pt (T := R) 0 0) + t1 * (x (pt (T := R) 2 2) - x (pt (T := R) 0 0)) =
       x (pt (T := R) 0 2) + t2 * (x (pt (T := R) 2 0) - x (pt (T := R) 0 2)))%R /\
    (y (pt (T := R) 0 0) + t1 * (y (pt (T := R) 2 2) - y (pt (T := R) 0 0)) =
       y (pt (T := R) 0 2) + t2 * (y (pt (T := R) 2 0) - y (pt (T := R) 0 2)))%R.
Proof.
  assert (Hnp : near_parallel (T := R) (pt 0 0) (pt 2 2) (pt 0 2) (pt 2 0) = false).
  { unfold near_parallel, denominator, pt; simpl. real_compare. reflexivity. }
  split; [exact Hnp |].
  apply (proj1 (@segments_intersect_real_iff_common_point _ _ _ _ Hnp)).
  unfold segments_intersect, line_t1, line_t2, denominator, pt; simpl.
  real_compare. reflexivity.
Defined.
